(** * Data-flow-node function generation and the tuple-call calling convention

    A shallow embedding of

    - [source/blender/functions/frontends/data_flow_nodes/function_generation.cpp]
      ([find_interface_sockets], [generate_function]), and
    - the tuple-call header ([TupleCallBody], [LazyState],
      [LazyInTupleCallBody]),

    together with the properties of these functions that the design
    document states, and of [ui_node_tag_recursive],
    [ui_node_clear_recursive] and [ui_node_remove_linked] of the node
    link menu. *)

From Stdlib Require Import ZArith Lia.
From stdpp Require Import gmap strings list fin_maps.

Local Open Scope Z_scope.

(** ** Machine integers: the C++ [uint] *)

Module UInt.

Definition modulus : Z := 2 ^ 32.
Definition max : Z := modulus - 1.

Definition wrap (z : Z) : Z := z mod modulus.
Definition add (a b : Z) : Z := wrap (a + b).
Definition sub (a b : Z) : Z := wrap (a - b).

End UInt.

(** ** Outcomes

    The code has no exception path.  What it has are assertions (an index
    outside an array, a socket the data graph does not know, a value added
    twice to a [VectorSet], a pop from an empty stack, a dereferenced
    pointer that owns nothing): a violated one is a programming fault
    that ends the run.  [Timeout] is the outcome of a loop model that was
    given too little fuel; [find_interface_sockets] below is shown never
    to produce it. *)

Inductive Fault : Set :=
| IndexOutOfRange
| SocketNotMapped
| ValueAlreadyContained
| StackEmpty
| InvalidPointer.

Inductive Outcome (A : Type) : Type :=
| Ok (a : A)
| Abort (f : Fault)
| Timeout.

Arguments Ok {A} a.
Arguments Abort {A} f.
Arguments Timeout {A}.

#[global] Instance outcome_ret : MRet Outcome := fun _ a => Ok a.
#[global] Instance outcome_bind : MBind Outcome :=
  fun _ _ k m => match m with Ok a => k a | Abort f => Abort f | Timeout => Timeout end.
#[global] Instance outcome_fmap : FMap Outcome :=
  fun _ _ g m => match m with Ok a => Ok (g a) | Abort f => Abort f | Timeout => Timeout end.

(** ** The node tree and its frozen view *)

(** [bNodeSocket], [bNode], [bNodeTree] ([DNA_node_types.h], not part of
    these sources): only what the generation step reads. *)
Record bNodeSocket : Set := { sock_name : string }.

Record bNode : Set := {
  node_idname : string;
  node_inputs : list bNodeSocket;
  node_outputs : list bNodeSocket
}.

(** A link goes from output socket [link_fromsock] of node [link_fromnode]
    to input socket [link_tosock] of node [link_tonode] (positions in the
    tree's node list and in the nodes' socket lists). *)
Record bNodeLink : Set := {
  link_fromnode : nat; link_fromsock : nat;
  link_tonode : nat; link_tosock : nat
}.

Record bNodeTree : Set := {
  id_name : string;
  tree_nodes : list bNode;
  tree_links : list bNodeLink
}.

(** Modelled from the spec: [VirtualSocket], [VirtualNode] and
    [VirtualNodeTree] are declared outside these sources.  A virtual node
    is a node instance within the frozen tree with an ordered list of
    input and of output sockets; a virtual socket is a connection point on
    a virtual node, identified by the stable index freezing gives it. *)
Record VirtualSocket : Set := { vs_id : nat; vs_bsocket : bNodeSocket }.

Record VirtualNode : Set := {
  vn_idname : string;
  vn_inputs : list VirtualSocket;
  vn_outputs : list VirtualSocket
}.

Record VirtualNodeTree : Set := {
  vt_nodes : list VirtualNode;
  vt_links : list bNodeLink;
  vt_frozen : bool
}.

Module VTree.

Definition empty : VirtualNodeTree :=
  {| vt_nodes := []; vt_links := []; vt_frozen := false |}.

Definition wrap_socket (s : bNodeSocket) : VirtualSocket :=
  {| vs_id := 0%nat; vs_bsocket := s |}.

Definition wrap_node (n : bNode) : VirtualNode :=
  {| vn_idname := node_idname n;
     vn_inputs := wrap_socket <$> node_inputs n;
     vn_outputs := wrap_socket <$> node_outputs n |}.

(** Modelled from the spec: [VirtualNodeTree::add_all_of_tree] is not
    part of these sources.  The view gets one virtual node per node of
    the tree, in tree order, with the node's sockets in declared order,
    and the tree's links. *)
Definition add_all_of_tree (vtree : VirtualNodeTree) (btree : bNodeTree)
  : VirtualNodeTree :=
  {| vt_nodes := vt_nodes vtree ++ (wrap_node <$> tree_nodes btree);
     vt_links := vt_links vtree ++ tree_links btree;
     vt_frozen := vt_frozen vtree |}.

Definition index_sockets (next : nat) (l : list VirtualSocket)
  : list VirtualSocket :=
  imap (fun k s => {| vs_id := (next + k)%nat; vs_bsocket := vs_bsocket s |}) l.

Fixpoint index_nodes (next : nat) (nodes : list VirtualNode)
  : list VirtualNode :=
  match nodes with
  | [] => []
  | n :: rest =>
      let next_out := (next + length (vn_inputs n))%nat in
      let next_node := (next_out + length (vn_outputs n))%nat in
      {| vn_idname := vn_idname n;
         vn_inputs := index_sockets next (vn_inputs n);
         vn_outputs := index_sockets next_out (vn_outputs n) |}
      :: index_nodes next_node rest
  end.

(** Modelled from the spec: [VirtualNodeTree::freeze_and_index] is not
    part of these sources.  Freezing fixes node and socket identities
    and assigns stable indices: the sockets are numbered node by node,
    inputs before outputs. *)
Definition freeze_and_index (vtree : VirtualNodeTree) : VirtualNodeTree :=
  {| vt_nodes := index_nodes 0 (vt_nodes vtree);
     vt_links := vt_links vtree;
     vt_frozen := true |}.

(** Modelled from the spec: [VirtualNodeTree::nodes_with_idname] is not
    part of these sources.  The nodes of the tree that have the given
    idname, in tree order. *)
Definition nodes_with_idname (vtree : VirtualNodeTree) (idname : string)
  : list VirtualNode :=
  filter (fun n => vn_idname n = idname) (vt_nodes vtree).

(** [ArrayRef::size] is a [uint]. *)
Definition size {A} (l : list A) : Z := Z.of_nat (length l).

(** [VirtualNode::input(i)] and [VirtualNode::output(i)]: element [i]
    of the socket array; an index outside the array is a fault. *)
Definition socket_at (sockets : list VirtualSocket) (i : Z)
  : Outcome VirtualSocket :=
  match sockets !! Z.to_nat i with
  | Some vsocket => Ok vsocket
  | None => Abort IndexOutOfRange
  end.

End VTree.

(** ** The data-flow graph *)

(** Modelled from the spec: [DataSocket], [DataFlowGraph] and
    [VTreeDataGraph] are declared outside these sources.  A data socket is
    identified by its graph-local index; the data graph of a virtual tree
    maps virtual sockets, many to one, onto data sockets. *)
Record DataSocket : Set := { ds_id : nat }.

#[global] Instance DataSocket_eq_dec : EqDecision DataSocket.
Proof. solve_decision. Defined.

Record DataFlowGraph : Set := { dfg_socket_count : nat }.

Record VTreeDataGraph : Type := {
  dg_graph : DataFlowGraph;
  dg_socket_map : gmap nat DataSocket
}.

(** Modelled from the spec: [VTreeDataGraph::lookup_socket] is not part of
    these sources.  The lookup must succeed for every socket considered;
    a socket without a data socket is a programming fault. *)
Definition lookup_socket (data_graph : VTreeDataGraph) (vsocket : VirtualSocket)
  : Outcome DataSocket :=
  match dg_socket_map data_graph !! vs_id vsocket with
  | Some dsocket => Ok dsocket
  | None => Abort SocketNotMapped
  end.

(** Modelled from the spec: [VectorSet] is declared outside these sources.
    An ordered, deduplicated set: the values in insertion order.
    [add_new] appends a value that the set does not contain yet; adding a
    contained value violates its precondition and is a programming
    fault.  The model stops there, as a build with assertions does; a
    build without assertions appends the value all the same.  The
    contract of the discovery is stated below for the calls that meet
    the precondition, where the two builds agree. *)
Module VectorSet.

Definition t : Set := list DataSocket.

Definition empty : t := [].

Definition contains (s : t) (value : DataSocket) : bool :=
  bool_decide (value ∈ s).

Definition add_new (s : t) (value : DataSocket) : Outcome t :=
  if contains s value then Abort ValueAlreadyContained
  else Ok (s ++ [value]).

Definition size (s : t) : Z := Z.of_nat (length s).

End VectorSet.

(** ** Interface socket discovery *)

Definition fn_FunctionInputNode : string := "fn_FunctionInputNode".
Definition fn_FunctionOutputNode : string := "fn_FunctionOutputNode".

(** The loop
    [for (uint i = 0; i < sockets.size() - 1; i++) r.add_new(data_graph.lookup_socket(sockets[i]))]
    from index [i] on, with [bound] the value of [sockets.size() - 1].
    One unit of fuel pays for one run of the loop body. *)
Fixpoint discover_loop (fuel : nat) (data_graph : VTreeDataGraph)
    (sockets : list VirtualSocket) (bound i : Z) (r : VectorSet.t)
  : Outcome VectorSet.t :=
  if i <? bound then
    match fuel with
    | O => Timeout
    | S fuel' =>
        vsocket ← VTree.socket_at sockets i;
        dsocket ← lookup_socket data_graph vsocket;
        r' ← VectorSet.add_new r dsocket;
        discover_loop fuel' data_graph sockets bound (UInt.add i 1) r'
    end
  else Ok r.

(** The bound of the loop, [sockets.size() - 1] in [uint] arithmetic. *)
Definition loop_bound (sockets : list VirtualSocket) : Z :=
  UInt.sub (VTree.size sockets) 1.

(** One side of the interface: the body of [if (node != nullptr) { for ... }]. *)
Definition discover_side (data_graph : VTreeDataGraph)
    (node : option VirtualNode) (sockets_of : VirtualNode -> list VirtualSocket)
    (r : VectorSet.t) : Outcome VectorSet.t :=
  match node with
  | Some n =>
      discover_loop (S (length (sockets_of n))) data_graph (sockets_of n)
        (loop_bound (sockets_of n)) 0 r
  | None => Ok r
  end.

(** [r_inputs] and [r_outputs] are passed by reference: the function
    returns their values after the call. *)
Definition find_interface_sockets (vtree : VirtualNodeTree)
    (data_graph : VTreeDataGraph) (r_inputs r_outputs : VectorSet.t)
  : Outcome (VectorSet.t * VectorSet.t) :=
  let input_node := head (VTree.nodes_with_idname vtree fn_FunctionInputNode) in
  let output_node := head (VTree.nodes_with_idname vtree fn_FunctionOutputNode) in
  r_inputs' ← discover_side data_graph input_node vn_outputs r_inputs;
  r_outputs' ← discover_side data_graph output_node vn_inputs r_outputs;
  Ok (r_inputs', r_outputs').

(** *** What the discovery has to compute

    The contract of the discovery, in the words of the design document:
    iterate the node's sockets in declared order, excluding the last one;
    map each to its data socket; keep the insertion order. *)

Fixpoint add_all (data_graph : VTreeDataGraph) (sockets : list VirtualSocket)
    (r : VectorSet.t) : Outcome VectorSet.t :=
  match sockets with
  | [] => Ok r
  | vsocket :: rest =>
      dsocket ← lookup_socket data_graph vsocket;
      r' ← VectorSet.add_new r dsocket;
      add_all data_graph rest r'
  end.

(** [dsocket] is the data socket that the graph has for [vsocket]. *)
Definition looked_up (data_graph : VTreeDataGraph) (vsocket : VirtualSocket)
    (dsocket : DataSocket) : Prop :=
  dg_socket_map data_graph !! vs_id vsocket = Some dsocket.

(** ** Functions and function graphs *)

(** Modelled from the spec: [FunctionGraph] is declared outside these
    sources.  It references a data-flow graph and holds two ordered sets
    of data sockets, the declared inputs and outputs; their order is the
    calling convention's position. *)
Record FunctionGraph : Set := {
  fg_graph : DataFlowGraph;
  fg_inputs : VectorSet.t;
  fg_outputs : VectorSet.t
}.

(** The executable representations that can be attached to a function.
    A tuple-call body is either built from the function graph or derived
    from the function's compiled-code body. *)
Inductive Body : Set :=
| DependenciesBody (fgraph : FunctionGraph)
| LLVMBuildIRBody (fgraph : FunctionGraph)
| FGraphTupleCallBody (fgraph : FunctionGraph)
| DerivedTupleCallBody.

(** Pointers are heap addresses. *)
Definition ptr : Set := nat.

(** Modelled from the spec: [Function] is declared outside these sources.
    A callable unit with a name, positional inputs and outputs (one per
    interface socket, represented by that socket), the bodies attached to
    it in attachment order, and the resources it owns, each with the name
    it was registered under. *)
Record Function : Set := {
  fn_name : string;
  fn_inputs : list DataSocket;
  fn_outputs : list DataSocket;
  fn_bodies : list Body;
  fn_resources : list (ptr * string)
}.

Module Fn.

Definition input_amount (fn : Function) : Z := Z.of_nat (length (fn_inputs fn)).
Definition output_amount (fn : Function) : Z := Z.of_nat (length (fn_outputs fn)).

Definition add_body (body : Body) (fn : Function) : Function :=
  {| fn_name := fn_name fn;
     fn_inputs := fn_inputs fn;
     fn_outputs := fn_outputs fn;
     fn_bodies := fn_bodies fn ++ [body];
     fn_resources := fn_resources fn |}.

(** [Function::add_resource]: the function takes over the object behind
    [resource]. *)
Definition add_resource (resource : ptr) (name : string) (fn : Function)
  : Function :=
  {| fn_name := fn_name fn;
     fn_inputs := fn_inputs fn;
     fn_outputs := fn_outputs fn;
     fn_bodies := fn_bodies fn;
     fn_resources := fn_resources fn ++ [(resource, name)] |}.

End Fn.

(** Modelled from the spec: [FunctionGraph::new_function] is not part of
    these sources.  A new function with the given name whose inputs and
    outputs are, position by position, the graph's declared input and
    output sockets; it has no body and owns no resource yet. *)
Definition new_function (fgraph : FunctionGraph) (name : string) : Function :=
  {| fn_name := name;
     fn_inputs := fg_inputs fgraph;
     fn_outputs := fg_outputs fgraph;
     fn_bodies := [];
     fn_resources := [] |}.

(** Modelled from the spec: the three body passes are not part of these
    sources.  Each takes a function and a function graph, attaches its
    body to the function and always succeeds. *)
Definition fgraph_add_DependenciesBody (fgraph : FunctionGraph) : Function -> Function :=
  Fn.add_body (DependenciesBody fgraph).
Definition fgraph_add_LLVMBuildIRBody (fgraph : FunctionGraph) : Function -> Function :=
  Fn.add_body (LLVMBuildIRBody fgraph).
Definition fgraph_add_TupleCallBody (fgraph : FunctionGraph) : Function -> Function :=
  Fn.add_body (FGraphTupleCallBody fgraph).

(** The pass behind the line that [generate_function] has commented out. *)
Definition derive_TupleCallBody_from_LLVMBuildIRBody : Function -> Function :=
  Fn.add_body DerivedTupleCallBody.

(** ** The heap

    [generate_function] creates objects with [make_unique], changes them
    through the pointers and hands them over with [std::move].  The heap
    maps the address of every live object to its value; an object whose
    owning pointer goes out of scope leaves the heap. *)

Inductive HeapObject : Type :=
| ObjVTree (vtree : VirtualNodeTree)
| ObjDataGraph (data_graph : VTreeDataGraph)
| ObjFunction (fn : Function).

Module Heap.

Definition M (A : Type) : Type :=
  gmap ptr HeapObject -> Outcome (A * gmap ptr HeapObject).

Definition ret {A} (a : A) : M A := fun h => Ok (a, h).

Definition bind {A B} (m : M A) (k : A -> M B) : M B :=
  fun h => match m h with
           | Ok (a, h') => k a h'
           | Abort f => Abort f
           | Timeout => Timeout
           end.

(** A computation without heap access. *)
Definition lift {A} (o : Outcome A) : M A :=
  fun h => match o with
           | Ok a => Ok (a, h)
           | Abort f => Abort f
           | Timeout => Timeout
           end.

(** [make_unique]: a new object at an address that is not in use. *)
Definition make_unique (o : HeapObject) : M ptr :=
  fun h => let p := fresh (dom h) in Ok (p, <[p := o]> h).

(** The destructor of an owning pointer that still owns its object. *)
Definition destroy (p : ptr) : M unit :=
  fun h => Ok (tt, delete p h).

Definition deref_vtree (p : ptr) : M VirtualNodeTree :=
  fun h => match h !! p with
           | Some (ObjVTree vtree) => Ok (vtree, h)
           | _ => Abort InvalidPointer
           end.

Definition deref_data_graph (p : ptr) : M VTreeDataGraph :=
  fun h => match h !! p with
           | Some (ObjDataGraph data_graph) => Ok (data_graph, h)
           | _ => Abort InvalidPointer
           end.

Definition deref_function (p : ptr) : M Function :=
  fun h => match h !! p with
           | Some (ObjFunction fn) => Ok (fn, h)
           | _ => Abort InvalidPointer
           end.

Definition store (p : ptr) (o : HeapObject) : M unit :=
  fun h => Ok (tt, <[p := o]> h).

(** A call of a method that changes the object behind [p]. *)
Definition update_vtree (p : ptr) (method : VirtualNodeTree -> VirtualNodeTree)
  : M unit :=
  bind (deref_vtree p) (fun vtree => store p (ObjVTree (method vtree))).

Definition update_function (p : ptr) (method : Function -> Function) : M unit :=
  bind (deref_function p) (fun fn => store p (ObjFunction (method fn))).

End Heap.

Declare Scope heap_scope.
Delimit Scope heap_scope with heap.
Notation "x <- m ;; k" := (Heap.bind m (fun x => k))
  (at level 100, m at next level, right associativity) : heap_scope.
Notation "m ;;; k" := (Heap.bind m (fun _ => k))
  (at level 100, right associativity) : heap_scope.

(** ** Function generation *)

Section Generation.

(** The graph-construction pass (not part of these sources): from the
    frozen virtual tree to its data graph, or nothing when it fails.  A
    graph it returns arrives as an owning pointer; a failed run leaves
    nothing behind. *)
Variable generate_graph : VirtualNodeTree -> option VTreeDataGraph.

(** The virtual tree of [btree] as [generate_function] sets it up before
    the graph construction: created, filled from the tree, frozen. *)
Definition frozen_vtree (btree : bNodeTree) : VirtualNodeTree :=
  VTree.freeze_and_index (VTree.add_all_of_tree VTree.empty btree).

Definition generate_function (btree : bNodeTree) : Heap.M (option ptr) :=
  (vtree <- Heap.make_unique (ObjVTree VTree.empty) ;;
   Heap.update_vtree vtree (fun vt => VTree.add_all_of_tree vt btree) ;;;
   Heap.update_vtree vtree VTree.freeze_and_index ;;;
   vt <- Heap.deref_vtree vtree ;;
   match generate_graph vt with
   | None =>
       (* return {}: [vtree] goes out of scope while it owns the tree *)
       Heap.destroy vtree ;;;
       Heap.ret None
   | Some graph =>
       data_graph <- Heap.make_unique (ObjDataGraph graph) ;;
       dg <- Heap.deref_data_graph data_graph ;;
       sockets <- Heap.lift
         (find_interface_sockets vt dg VectorSet.empty VectorSet.empty) ;;
       let input_sockets := sockets.1 in
       let output_sockets := sockets.2 in
       let fgraph := {| fg_graph := dg_graph dg;
                        fg_inputs := input_sockets;
                        fg_outputs := output_sockets |} in
       fn <- Heap.make_unique (ObjFunction (new_function fgraph (id_name btree))) ;;
       Heap.update_function fn (fgraph_add_DependenciesBody fgraph) ;;;
       Heap.update_function fn (fgraph_add_LLVMBuildIRBody fgraph) ;;;
       Heap.update_function fn (fgraph_add_TupleCallBody fgraph) ;;;
       Heap.update_function fn (Fn.add_resource vtree "Virtual Node Tree") ;;;
       Heap.update_function fn (Fn.add_resource data_graph "VTreeDataGraph") ;;;
       Heap.ret (Some fn)
   end)%heap.

End Generation.

(** ** Execution contexts *)

(** Modelled from the spec: [SourceInfo], [StackFrame] with its variants
    [TextStackFrame] and [SourceInfoStackFrame], [ExecutionStack] and
    [ExecutionContext] are declared outside these sources.  An execution
    context holds a call stack of diagnostic frames; [push] puts a frame
    on top of it and [pop] takes the top frame off.  The top of the stack
    is the end of the list.  A pop from an empty stack is a programming
    fault. *)
Record SourceInfo : Set := { source_text : string }.

Inductive StackFrame : Set :=
| TextStackFrame (text : string)
| SourceInfoStackFrame (source_info : option SourceInfo).

Record ExecutionContext : Set := { ctx_stack : list StackFrame }.

Module Stack.

Definition push (ctx : ExecutionContext) (frame : StackFrame) : ExecutionContext :=
  {| ctx_stack := ctx_stack ctx ++ [frame] |}.

Definition pop (ctx : ExecutionContext) : Outcome ExecutionContext :=
  match ctx_stack ctx with
  | [] => Abort StackEmpty
  | _ :: _ => Ok {| ctx_stack := removelast (ctx_stack ctx) |}
  end.

Definition empty : ExecutionContext := {| ctx_stack := [] |}.

End Stack.

(** ** Tuples *)

(** Modelled from the spec: [Tuple] is declared outside these sources.  A
    fixed-layout value container; every slot is initialized (and then
    holds a value) or not. *)
Definition Tuple : Set := list (option Z).

(** ** The tuple-call body *)

(** What a call leaves behind in the objects it got by reference. *)
Record CallResult : Set := {
  res_in : Tuple;
  res_out : Tuple;
  res_ctx : ExecutionContext
}.

(** A tuple-call body: the function that owns it and its implementation
    of the pure virtual [call]. *)
Record TupleCallBody : Type := {
  tcb_owner : Function;
  tcb_call : Tuple -> Tuple -> ExecutionContext -> CallResult
}.

Module TupleCall.

Definition call__setup_stack (this : TupleCallBody)
    (fn_in fn_out : Tuple) (ctx : ExecutionContext) : Outcome CallResult :=
  let frame := TextStackFrame (fn_name (tcb_owner this)) in
  let ctx := Stack.push ctx frame in
  let r := tcb_call this fn_in fn_out ctx in
  ctx ← Stack.pop (res_ctx r);
  Ok {| res_in := res_in r; res_out := res_out r; res_ctx := ctx |}.

Definition call__setup_stack_frame (this : TupleCallBody)
    (fn_in fn_out : Tuple) (ctx : ExecutionContext) (extra_frame : StackFrame)
  : Outcome CallResult :=
  let ctx := Stack.push ctx extra_frame in
  r ← call__setup_stack this fn_in fn_out ctx;
  ctx ← Stack.pop (res_ctx r);
  Ok {| res_in := res_in r; res_out := res_out r; res_ctx := ctx |}.

Definition call__setup_stack_source (this : TupleCallBody)
    (fn_in fn_out : Tuple) (ctx : ExecutionContext)
    (source_info : option SourceInfo) : Outcome CallResult :=
  let frame := SourceInfoStackFrame source_info in
  call__setup_stack_frame this fn_in fn_out ctx frame.

Definition call__setup_execution_context (this : TupleCallBody)
    (fn_in fn_out : Tuple) : Outcome CallResult :=
  let ctx := Stack.empty in
  call__setup_stack this fn_in fn_out ctx.

End TupleCall.

(** ** The lazy tuple-call body *)

Record LazyState : Set := {
  m_entry_count : Z;
  m_is_done : bool;
  m_user_data : ptr;
  m_requested_inputs : list Z
}.

Module Lazy.

(** The constructor [LazyState(void *user_data)]. *)
Definition new (user_data : ptr) : LazyState :=
  {| m_entry_count := 0;
     m_is_done := false;
     m_user_data := user_data;
     m_requested_inputs := [] |}.

Definition start_next_entry (s : LazyState) : LazyState :=
  {| m_entry_count := UInt.add (m_entry_count s) 1;
     m_is_done := m_is_done s;
     m_user_data := m_user_data s;
     m_requested_inputs := [] |}.

Definition request_input (s : LazyState) (index : Z) : LazyState :=
  {| m_entry_count := m_entry_count s;
     m_is_done := m_is_done s;
     m_user_data := m_user_data s;
     m_requested_inputs := m_requested_inputs s ++ [index] |}.

Definition done (s : LazyState) : LazyState :=
  {| m_entry_count := m_entry_count s;
     m_is_done := true;
     m_user_data := m_user_data s;
     m_requested_inputs := m_requested_inputs s |}.

Definition requested_inputs (s : LazyState) : list Z := m_requested_inputs s.

Definition is_first_entry (s : LazyState) : bool := m_entry_count s =? 1.

Definition is_done (s : LazyState) : bool := m_is_done s.

Definition user_data (s : LazyState) : ptr := m_user_data s.

(** The operations that change a [LazyState], and runs of them. *)
Inductive Op : Set :=
| StartNextEntry
| RequestInput (index : Z)
| Done.

Definition step (s : LazyState) (op : Op) : LazyState :=
  match op with
  | StartNextEntry => start_next_entry s
  | RequestInput index => request_input s index
  | Done => done s
  end.

Definition run (ops : list Op) (s : LazyState) : LazyState :=
  fold_left step ops s.

End Lazy.

Record LazyCallResult : Set := {
  lres_in : Tuple;
  lres_out : Tuple;
  lres_ctx : ExecutionContext;
  lres_state : LazyState
}.

Record LazyInTupleCallBody : Type := {
  lazy_owner : Function;
  lazy_call : Tuple -> Tuple -> ExecutionContext -> LazyState -> LazyCallResult
}.

Module LazyCall.

Definition call__setup_stack (this : LazyInTupleCallBody)
    (fn_in fn_out : Tuple) (ctx : ExecutionContext) (state : LazyState)
  : Outcome LazyCallResult :=
  let frame := TextStackFrame (fn_name (lazy_owner this)) in
  let ctx := Stack.push ctx frame in
  let r := lazy_call this fn_in fn_out ctx state in
  ctx ← Stack.pop (lres_ctx r);
  Ok {| lres_in := lres_in r; lres_out := lres_out r;
        lres_ctx := ctx; lres_state := lres_state r |}.

Definition call__setup_stack_frame (this : LazyInTupleCallBody)
    (fn_in fn_out : Tuple) (ctx : ExecutionContext) (state : LazyState)
    (extra_frame : StackFrame) : Outcome LazyCallResult :=
  let ctx := Stack.push ctx extra_frame in
  r ← call__setup_stack this fn_in fn_out ctx state;
  ctx ← Stack.pop (lres_ctx r);
  Ok {| lres_in := lres_in r; lres_out := lres_out r;
        lres_ctx := ctx; lres_state := lres_state r |}.

Definition call__setup_stack_source (this : LazyInTupleCallBody)
    (fn_in fn_out : Tuple) (ctx : ExecutionContext) (state : LazyState)
    (source_info : option SourceInfo) : Outcome LazyCallResult :=
  let frame := SourceInfoStackFrame source_info in
  call__setup_stack_frame this fn_in fn_out ctx state frame.

End LazyCall.

(** ** Sample trees and graphs *)

Module Sample.

Definition socket (name : string) : bNodeSocket := {| sock_name := name |}.

(** An input node with the outputs [a], [b] and the placeholder, an
    output node with the input [result] and the placeholder, and a link
    from [a] to [result]. *)
Definition trivial_tree : bNodeTree :=
  {| id_name := "NTTrivial";
     tree_nodes :=
       [ {| node_idname := fn_FunctionInputNode;
            node_inputs := [];
            node_outputs := [socket "a"; socket "b"; socket "new"] |};
         {| node_idname := fn_FunctionOutputNode;
            node_inputs := [socket "result"; socket "new"];
            node_outputs := [] |} ];
     tree_links :=
       [ {| link_fromnode := 0; link_fromsock := 0;
            link_tonode := 1; link_tosock := 0 |} ] |}.

Definition trivial_vtree : VirtualNodeTree := frozen_vtree trivial_tree.

(** The data graph of the trivial tree: [a] and [b] have the data
    sockets 0 and 1; [result] is linked to [a] and shares its data
    socket.  The placeholders have none. *)
Definition trivial_graph : VTreeDataGraph :=
  {| dg_graph := {| dfg_socket_count := 2 |};
     dg_socket_map :=
       <[0%nat := {| ds_id := 0 |}]>
         (<[1%nat := {| ds_id := 1 |}]>
            (<[3%nat := {| ds_id := 0 |}]> ∅)) |}.

(** An input node with the output [a] and the placeholder, an output node
    with the inputs [first], [second] and the placeholder, and links from
    [a] to both inputs. *)
Definition fanout_tree : bNodeTree :=
  {| id_name := "NTFanout";
     tree_nodes :=
       [ {| node_idname := fn_FunctionInputNode;
            node_inputs := [];
            node_outputs := [socket "a"; socket "new"] |};
         {| node_idname := fn_FunctionOutputNode;
            node_inputs := [socket "first"; socket "second"; socket "new"];
            node_outputs := [] |} ];
     tree_links :=
       [ {| link_fromnode := 0; link_fromsock := 0;
            link_tonode := 1; link_tosock := 0 |};
         {| link_fromnode := 0; link_fromsock := 0;
            link_tonode := 1; link_tosock := 1 |} ] |}.

Definition fanout_input_node : VirtualNode :=
  {| vn_idname := fn_FunctionInputNode;
     vn_inputs := [];
     vn_outputs := [ {| vs_id := 0; vs_bsocket := socket "a" |};
                     {| vs_id := 1; vs_bsocket := socket "new" |} ] |}.

Definition fanout_output_node : VirtualNode :=
  {| vn_idname := fn_FunctionOutputNode;
     vn_inputs := [ {| vs_id := 2; vs_bsocket := socket "first" |};
                    {| vs_id := 3; vs_bsocket := socket "second" |};
                    {| vs_id := 4; vs_bsocket := socket "new" |} ];
     vn_outputs := [] |}.

(** The data graph of the fan-out tree: [a] has the data socket 0, and
    both inputs of the output node, linked to [a], share it. *)
Definition fanout_graph : VTreeDataGraph :=
  {| dg_graph := {| dfg_socket_count := 1 |};
     dg_socket_map :=
       <[0%nat := {| ds_id := 0 |}]>
         (<[2%nat := {| ds_id := 0 |}]>
            (<[3%nat := {| ds_id := 0 |}]> ∅)) |}.

Definition trivial_input_node : VirtualNode :=
  {| vn_idname := fn_FunctionInputNode;
     vn_inputs := [];
     vn_outputs := [ {| vs_id := 0; vs_bsocket := socket "a" |};
                     {| vs_id := 1; vs_bsocket := socket "b" |};
                     {| vs_id := 2; vs_bsocket := socket "new" |} ] |}.

Definition trivial_output_node : VirtualNode :=
  {| vn_idname := fn_FunctionOutputNode;
     vn_inputs := [ {| vs_id := 3; vs_bsocket := socket "result" |};
                    {| vs_id := 4; vs_bsocket := socket "new" |} ];
     vn_outputs := [] |}.

(** A tree whose input node has no socket at all, not even the
    placeholder. *)
Definition bare_input_node : VirtualNode :=
  {| vn_idname := fn_FunctionInputNode; vn_inputs := []; vn_outputs := [] |}.

Definition bare_vtree : VirtualNodeTree :=
  {| vt_nodes := [bare_input_node]; vt_links := []; vt_frozen := true |}.

(** A tree with two input nodes (and no output node). *)
Definition second_input_node : VirtualNode :=
  {| vn_idname := fn_FunctionInputNode;
     vn_inputs := [];
     vn_outputs := [ {| vs_id := 3; vs_bsocket := socket "c" |};
                     {| vs_id := 4; vs_bsocket := socket "new" |} ] |}.

Definition two_inputs_vtree : VirtualNodeTree :=
  {| vt_nodes := [trivial_input_node; second_input_node];
     vt_links := []; vt_frozen := true |}.

(** The data graph of the trivial tree with data sockets for the two
    placeholders as well. *)
Definition placeholder_graph : VTreeDataGraph :=
  {| dg_graph := {| dfg_socket_count := 4 |};
     dg_socket_map :=
       <[2%nat := {| ds_id := 2 |}]>
         (<[4%nat := {| ds_id := 3 |}]> (dg_socket_map trivial_graph)) |}.

(** A graph construction that yields [trivial_graph], and one that
    fails. *)
Definition trivial_generate_graph (vtree : VirtualNodeTree)
  : option VTreeDataGraph := Some trivial_graph.

Definition failing_generate_graph (vtree : VirtualNodeTree)
  : option VTreeDataGraph := None.

(** A function, and two bodies it owns: the tuple-call body moves its
    inputs to the output tuple, the lazy body asks for input 0 on its
    first entry and is done on the next one.  Neither touches the frame
    stack. *)
Definition some_function : Function :=
  {| fn_name := "Some Function"; fn_inputs := []; fn_outputs := [];
     fn_bodies := []; fn_resources := [] |}.

Definition move_body : TupleCallBody :=
  {| tcb_owner := some_function;
     tcb_call := fun fn_in fn_out ctx =>
       {| res_in := (fun _ => None) <$> fn_in;
          res_out := fn_in;
          res_ctx := ctx |} |}.

Definition lazy_body : LazyInTupleCallBody :=
  {| lazy_owner := some_function;
     lazy_call := fun fn_in fn_out ctx state =>
       {| lres_in := fn_in;
          lres_out := fn_in;
          lres_ctx := ctx;
          lres_state := if Lazy.is_first_entry state
                        then Lazy.request_input state 0
                        else Lazy.done state |} |}.

End Sample.

(** ** Runs of lazy-state operations, counted *)

#[global] Instance lazy_op_eq_dec : EqDecision Lazy.Op.
Proof. solve_decision. Defined.

(** The number of [start_next_entry] calls in a run. *)
Definition entries_started (ops : list Lazy.Op) : Z :=
  Z.of_nat (length (filter (fun op => op = Lazy.StartNextEntry) ops)).

(** The indices that the [request_input] calls of a run ask for, in call
    order. *)
Definition requests_of (ops : list Lazy.Op) : list Z :=
  omap (fun op => match op with
                  | Lazy.RequestInput index => Some index
                  | _ => None
                  end) ops.

(** ** Node link menu: removing linked nodes *)

(** A loop over a list that threads a state and stops at the first fault. *)
Fixpoint for_each {A S : Type} (body : S -> A -> Outcome S) (l : list A) (s : S)
  : Outcome S :=
  match l with
  | [] => Ok s
  | x :: rest => s' ← body s x; for_each body rest s'
  end.

(** The C [int]: 32 bits, two's complement. *)
Module Int.

Definition wrap (z : Z) : Z := (z + 2 ^ 31) mod 2 ^ 32 - 2 ^ 31.
Definition sub (a b : Z) : Z := wrap (a - b).

End Int.

Module NodeLink.

(** [bNodeLink], [bNodeSocket], [bNode] and [ID] as the node link menu
    reads and writes them ([DNA_node_types.h] is not part of these
    sources): a link knows the node it comes from, an input socket its
    link, a node its flags, its input sockets and its data block.  All of
    these are reached through pointers; a null pointer is [None]. *)
Record Link : Set := { l_fromnode : option ptr }.

Record Socket : Set := { s_link : option Link }.

Record Node : Set := {
  n_flag : Z;
  n_inputs : list Socket;
  n_id : option ptr
}.

(** The memory: the node behind every node pointer, and the user count
    [us] of the data block behind every [ID] pointer. *)
Record World : Type := {
  w_nodes : gmap ptr Node;
  w_id_us : gmap ptr Z
}.

Definition with_flag (n : Node) (flag : Z) : Node :=
  {| n_flag := flag; n_inputs := n_inputs n; n_id := n_id n |}.

Definition deref (m : gmap ptr Node) (node : ptr) : Outcome Node :=
  match m !! node with
  | Some n => Ok n
  | None => Abort InvalidPointer
  end.

Section Flags.

(** The flag bit [NODE_TEST] ([DNA_node_types.h]). *)
Variable NODE_TEST : Z.

(** [node->flag & NODE_TEST] as a condition. *)
Definition tagged (n : Node) : bool := negb (Z.land (n_flag n) NODE_TEST =? 0).

Fixpoint ui_node_tag_recursive (fuel : nat) (node : option ptr)
    (m : gmap ptr Node) : Outcome (gmap ptr Node) :=
  match node with
  | None => Ok m
  | Some p =>
      n ← deref m p;
      if tagged n then Ok m (* in case of cycles *)
      else
        match fuel with
        | O => Timeout
        | S fuel' =>
            let m := <[p := with_flag n (Z.lor (n_flag n) NODE_TEST)]> m in
            for_each (fun m input =>
                        match s_link input with
                        | Some l => ui_node_tag_recursive fuel' (l_fromnode l) m
                        | None => Ok m
                        end)
              (n_inputs n) m
        end
  end.

Fixpoint ui_node_clear_recursive (fuel : nat) (node : option ptr)
    (m : gmap ptr Node) : Outcome (gmap ptr Node) :=
  match node with
  | None => Ok m
  | Some p =>
      n ← deref m p;
      if negb (tagged n) then Ok m (* in case of cycles *)
      else
        match fuel with
        | O => Timeout
        | S fuel' =>
            let m := <[p := with_flag n (Z.land (n_flag n) (Z.lnot NODE_TEST))]> m in
            for_each (fun m input =>
                        match s_link input with
                        | Some l => ui_node_clear_recursive fuel' (l_fromnode l) m
                        | None => Ok m
                        end)
              (n_inputs n) m
        end
  end.

(** The first loop of [ui_node_remove_linked]: no node of the tree is
    tagged. *)
Definition clear_tags (ntree : list ptr) (m : gmap ptr Node)
  : Outcome (gmap ptr Node) :=
  for_each (fun m node =>
              n ← deref m node;
              Ok (<[node := with_flag n (Z.land (n_flag n) (Z.lnot NODE_TEST))]> m))
    ntree m.

(** The second loop: clear tags on nodes that are still used by other
    nodes. *)
Definition clear_used (fuel : nat) (ntree : list ptr) (rem_node : ptr)
    (m : gmap ptr Node) : Outcome (gmap ptr Node) :=
  for_each (fun m node =>
              n ← deref m node;
              if negb (tagged n) then
                for_each (fun m sock =>
                            match s_link sock with
                            | Some l =>
                                if decide (l_fromnode l <> Some rem_node)
                                then ui_node_clear_recursive fuel (l_fromnode l) m
                                else Ok m
                            | None => Ok m
                            end)
                  (n_inputs n) m
              else Ok m)
    ntree m.

(** The third loop: every node that is still tagged loses a user of its
    data block and is handed to [nodeFreeNode].  [nodeFreeNode] is not
    part of these sources: the model lists the nodes handed to it, in
    call order, and takes it to leave the flags of the other nodes
    alone. *)
Definition remove_step (m : gmap ptr Node) (state : gmap ptr Z * list ptr)
    (node : ptr) : Outcome (gmap ptr Z * list ptr) :=
  let '(ids, freed) := state in
  n ← deref m node;
  if tagged n then
    ids ← match n_id n with
          | Some i =>
              match ids !! i with
              | Some us => Ok (<[i := Int.sub us 1]> ids)
              | None => Abort InvalidPointer
              end
          | None => Ok ids
          end;
    Ok (ids, freed ++ [node])
  else Ok (ids, freed).

Definition remove_tagged (ntree : list ptr) (m : gmap ptr Node)
    (ids : gmap ptr Z) : Outcome (gmap ptr Z * list ptr) :=
  for_each (remove_step m) ntree (ids, []).

(** [ntree] is the list [ntree->nodes].  The recursions get the fuel for
    one visit of every node of the memory.  The result holds the user
    counts after the call, the nodes handed to [nodeFreeNode], and the
    node memory as the removal loop read it.  What [nodeFreeNode] does
    to the memory (the freed nodes, the links that come from them) is
    not modelled: nothing is stated about the node memory after the
    call. *)
Definition ui_node_remove_linked (ntree : list ptr) (rem_node : option ptr)
    (w : World) : Outcome (World * list ptr) :=
  match rem_node with
  | None => Ok (w, [])
  | Some rem =>
      let fuel := S (size (w_nodes w)) in
      m ← clear_tags ntree (w_nodes w);
      (* tag linked nodes to be removed *)
      m ← ui_node_tag_recursive fuel (Some rem) m;
      m ← clear_used fuel ntree rem m;
      removed ← remove_tagged ntree m (w_id_us w);
      Ok ({| w_nodes := m; w_id_us := removed.1 |}, removed.2)
  end.

(** The part of [ui_node_remove_linked] before the removal loop: the two
    loops over the tree and the call of [ui_node_tag_recursive] between
    them.  It computes the tags that the removal loop reads. *)
Definition tag_linked_nodes (ntree : list ptr) (rem : ptr)
    (m : gmap ptr Node) : Outcome (gmap ptr Node) :=
  let fuel := S (size m) in
  m ← clear_tags ntree m;
  (* tag linked nodes to be removed *)
  m ← ui_node_tag_recursive fuel (Some rem) m;
  (* clear tags on nodes that are still used by other nodes *)
  clear_used fuel ntree rem m.

End Flags.

(** The two flag updates of a node. *)
Definition set_tag (NODE_TEST : Z) (n : Node) : Node :=
  with_flag n (Z.lor (n_flag n) NODE_TEST).

Definition clear_tag (NODE_TEST : Z) (n : Node) : Node :=
  with_flag n (Z.land (n_flag n) (Z.lnot NODE_TEST)).

(** What the two recursions share: visit a node unless it is null or
    [seen], [mark] it, then visit the nodes its inputs are linked from.
    A proof device; the two functions above are instances of it. *)
Fixpoint dfs (seen : Node -> bool) (mark : Node -> Node) (fuel : nat)
    (node : option ptr) (m : gmap ptr Node) : Outcome (gmap ptr Node) :=
  match node with
  | None => Ok m
  | Some p =>
      n ← deref m p;
      if seen n then Ok m
      else
        match fuel with
        | O => Timeout
        | S fuel' =>
            for_each (fun m input =>
                        match s_link input with
                        | Some l => dfs seen mark fuel' (l_fromnode l) m
                        | None => Ok m
                        end)
              (n_inputs n) (<[p := mark n]> m)
        end
  end.

(** The nodes that the inputs of a node are linked from. *)
Definition sources (n : Node) : list ptr :=
  omap (fun input => s_link input ≫= l_fromnode) (n_inputs n).

Definition link_sources (l : list Socket) : list ptr :=
  omap (fun input => s_link input ≫= l_fromnode) l.

(** [edge m p q]: an input of the node at [p] is linked from the node at
    [q]. *)
Definition edge (m : gmap ptr Node) (p q : ptr) : Prop :=
  exists n, m !! p = Some n /\ q ∈ sources n.

(** Every link comes from a node of the memory. *)
Definition closed (m : gmap ptr Node) : Prop :=
  forall p q, edge m p q -> is_Some (m !! q).

(** The tree lists every node of the memory, once. *)
Definition well_formed (ntree : list ptr) (m : gmap ptr Node) : Prop :=
  NoDup ntree /\ (forall p, p ∈ ntree <-> is_Some (m !! p)) /\ closed m.

(** Whether the node behind [q] is tagged. *)
Definition is_tagged (NODE_TEST : Z) (m : gmap ptr Node) (q : ptr) : bool :=
  match m !! q with
  | Some n => tagged NODE_TEST n
  | None => false
  end.

(** The number of tagged nodes of the tree that use the data block [i]. *)
Definition tagged_users (NODE_TEST : Z) (m : gmap ptr Node) (ntree : list ptr)
    (i : ptr) : nat :=
  length (filter (fun q => is_tagged NODE_TEST m q = true
                           /\ (m !! q ≫= n_id) = Some i) ntree).

(** Every data block of a node has a user count. *)
Definition ids_valid (w : World) : Prop :=
  forall p n i, w_nodes w !! p = Some n -> n_id n = Some i ->
                is_Some (w_id_us w !! i).

Section SearchState.

Variable seen : Node -> bool.
Variable mark : Node -> Node.

Definition seen_in (m : gmap ptr Node) (p : ptr) : Prop :=
  exists n, m !! p = Some n /\ seen n = true.

Definition unseen_in (m : gmap ptr Node) (p : ptr) : Prop :=
  exists n, m !! p = Some n /\ seen n = false.

(** The node at [q] was not seen in [m] and is marked in [m']. *)
Definition changed (m m' : gmap ptr Node) (q : ptr) : Prop :=
  exists n, m !! q = Some n /\ seen n = false /\ m' !! q = Some (mark n).

(** [m'] is [m] with some nodes that were not seen marked. *)
Definition extends (m m' : gmap ptr Node) : Prop :=
  forall q, m' !! q = m !! q \/ changed m m' q.

(** The nodes that are not seen are among [k] pointers. *)
Definition unseen_bound (m : gmap ptr Node) (k : nat) : Prop :=
  exists u : list ptr, (length u <= k)%nat /\ forall p, unseen_in m p -> p ∈ u.

(** What a search from the nodes [starts] achieves. *)
Definition searched (starts : list ptr) (m m' : gmap ptr Node) : Prop :=
  extends m m'
  /\ (forall c, c ∈ starts -> seen_in m' c)
  /\ (forall q q', changed m m' q -> edge m q q' -> seen_in m' q')
  /\ (forall q, changed m m' q -> exists c, c ∈ starts /\ rtc (edge m) c q).

End SearchState.

(** Checks of the conditions above that can be computed. *)
Definition links_inside (m : gmap ptr Node) : Prop :=
  map_Forall (fun _ n => Forall (fun q => is_Some (m !! q)) (sources n)) m.

Definition links_descend (rank : ptr -> nat) (m : gmap ptr Node) : Prop :=
  map_Forall (fun p n => Forall (fun q => (rank q < rank p)%nat) (sources n)) m.

End NodeLink.

(** ** Sample node trees *)

Module SampleLinks.

Import NodeLink.

Definition NODE_TEST : Z := 256.

Definition from (p : ptr) : Socket :=
  {| s_link := Some {| l_fromnode := Some p |} |}.

Definition unlinked : Socket := {| s_link := None |}.

(** Two nodes that feed each other, a third that feeds the second, and a
    node on its own. *)
Definition cyclic : gmap ptr Node :=
  <[1%nat := {| n_flag := 1; n_inputs := [from 2%nat]; n_id := None |}]>
    (<[2%nat := {| n_flag := 0; n_inputs := [from 1%nat; unlinked; from 3%nat];
                   n_id := None |}]>
       (<[3%nat := {| n_flag := 2; n_inputs := []; n_id := None |}]>
          (<[4%nat := {| n_flag := 0; n_inputs := [unlinked]; n_id := None |}]>
             ∅))).

(** A tree for [ui_node_remove_linked]: node 2 is the one to remove; it
    is fed by 3 and 4, and 3 is fed by 5.  Node 1 uses 2 and 3.  Node 6
    is on its own and carries a stale tag.  The nodes 2 and 4 share the
    data block 10, node 3 has the data block 11. *)
Definition tree_nodes : gmap ptr Node :=
  <[1%nat := {| n_flag := 1; n_inputs := [from 3%nat; from 2%nat]; n_id := None |}]>
    (<[2%nat := {| n_flag := 16; n_inputs := [from 3%nat; unlinked; from 4%nat];
                   n_id := Some 10%nat |}]>
       (<[3%nat := {| n_flag := 0; n_inputs := [from 5%nat]; n_id := Some 11%nat |}]>
          (<[4%nat := {| n_flag := 0; n_inputs := []; n_id := Some 10%nat |}]>
             (<[5%nat := {| n_flag := 0; n_inputs := []; n_id := None |}]>
                (<[6%nat := {| n_flag := 257; n_inputs := []; n_id := None |}]>
                   ∅))))).

Definition tree : list ptr := [6; 1; 2; 3; 4; 5]%nat.

Definition world : World :=
  {| w_nodes := tree_nodes;
     w_id_us := <[10%nat := 3]> (<[11%nat := 1]> ∅) |}.

Definition rank (p : ptr) : nat := (10 - p)%nat.

End SampleLinks.

(** * Properties *)

(** ** Unsigned arithmetic *)

Lemma uint_sub_zero_one : UInt.sub 0 1 = UInt.max.
Proof. reflexivity. Qed.

Lemma uint_max_value : UInt.max = 4294967295.
Proof. reflexivity. Qed.

Lemma uint_sub_pos_one z : 1 <= z <= UInt.modulus -> UInt.sub z 1 = z - 1.
Proof.
  unfold UInt.sub, UInt.wrap, UInt.modulus. intros H.
  apply Z.mod_small. lia.
Qed.

Lemma uint_add_one z : 0 <= z < UInt.max -> UInt.add z 1 = z + 1.
Proof.
  unfold UInt.add, UInt.wrap, UInt.max, UInt.modulus. intros H.
  apply Z.mod_small. lia.
Qed.

(** ** Outcomes *)

Lemma bind_Ok {A B} (m : Outcome A) (k : A -> Outcome B) b :
  m ≫= k = Ok b <-> exists a, m = Ok a /\ k a = Ok b.
Proof.
  destruct m as [a|f|]; simpl; split.
  - intros H. exists a. auto.
  - intros (a' & Ha & Hk). congruence.
  - discriminate.
  - intros (a' & Ha & _). discriminate.
  - discriminate.
  - intros (a' & Ha & _). discriminate.
Qed.

(** ** The discovery loop *)

Lemma removelast_take {A} (l : list A) :
  removelast l = take (length l - 1)%nat l.
Proof.
  induction l as [|a [|b l] IH]; try reflexivity.
  change (removelast (a :: b :: l)) with (a :: removelast (b :: l)).
  rewrite IH. simpl. rewrite Nat.sub_0_r. reflexivity.
Qed.

Lemma socket_at_lookup sockets i vsocket :
  0 <= i -> sockets !! Z.to_nat i = Some vsocket ->
  VTree.socket_at sockets i = Ok vsocket.
Proof. intros _ H. unfold VTree.socket_at. rewrite H. reflexivity. Qed.

Lemma socket_at_out_of_range sockets i :
  VTree.size sockets <= i -> VTree.socket_at sockets i = Abort IndexOutOfRange.
Proof.
  intros H. unfold VTree.socket_at, VTree.size in *.
  rewrite lookup_ge_None_2; [reflexivity | lia].
Qed.

(** With a bound inside the array and enough fuel, the loop adds the
    sockets [i], ..., [bound - 1], in this order. *)
Lemma discover_loop_add_all data_graph sockets bound :
  0 <= bound < VTree.size sockets -> bound < UInt.max ->
  forall (k : nat) (i : Z) (fuel : nat) (r : VectorSet.t),
    0 <= i -> i + Z.of_nat k = bound -> (k <= fuel)%nat ->
    discover_loop fuel data_graph sockets bound i r
    = add_all data_graph (take k (drop (Z.to_nat i) sockets)) r.
Proof.
  intros Hb Hmax. induction k as [|k IH]; intros i fuel r Hi Hk Hfuel.
  - assert ((i <? bound) = false) as Hlt by (apply Z.ltb_ge; lia).
    destruct fuel; simpl; rewrite Hlt; reflexivity.
  - destruct fuel as [|fuel]; [lia|].
    assert ((i <? bound) = true) as Hlt by (apply Z.ltb_lt; lia).
    simpl discover_loop. rewrite Hlt.
    unfold VTree.size in Hb.
    destruct (lookup_lt_is_Some_2 sockets (Z.to_nat i)) as [vsocket Hvs]; [lia|].
    rewrite (drop_S _ _ _ Hvs). simpl take. simpl add_all.
    rewrite (socket_at_lookup _ _ _ Hi Hvs). simpl.
    destruct (lookup_socket data_graph vsocket) as [dsocket|f|]; simpl; try reflexivity.
    destruct (VectorSet.add_new r dsocket) as [r'|f|]; simpl; try reflexivity.
    rewrite uint_add_one by lia.
    rewrite (IH (i + 1) fuel r') by lia.
    replace (Z.to_nat (i + 1)) with (S (Z.to_nat i)) by lia. reflexivity.
Qed.

(** A node with at least one socket: the loop, started with the fuel that
    [discover_side] gives it, adds all sockets but the last. *)
Lemma discover_side_add_all data_graph n sockets_of r :
  1 <= VTree.size (sockets_of n) <= UInt.max ->
  discover_side data_graph (Some n) sockets_of r
  = add_all data_graph (removelast (sockets_of n)) r.
Proof.
  intros Hsize. unfold discover_side, loop_bound.
  assert (UInt.max < UInt.modulus) by reflexivity.
  rewrite uint_sub_pos_one by lia.
  unfold VTree.size in *.
  rewrite (discover_loop_add_all data_graph (sockets_of n)
             (Z.of_nat (length (sockets_of n)) - 1)
             ltac:(unfold VTree.size; lia) ltac:(lia)
             (length (sockets_of n) - 1)%nat 0); try lia.
  rewrite removelast_take. reflexivity.
Qed.

(** A node without sockets: the bound wraps around and the first access
    is outside the array. *)
Lemma discover_side_no_sockets data_graph n sockets_of r :
  sockets_of n = [] ->
  discover_side data_graph (Some n) sockets_of r = Abort IndexOutOfRange.
Proof. intros H. unfold discover_side, loop_bound. rewrite H. reflexivity. Qed.

Example trivial_vtree_nodes :
  vt_nodes Sample.trivial_vtree
  = [Sample.trivial_input_node; Sample.trivial_output_node].
Proof. reflexivity. Qed.

Example trivial_find_interface_sockets :
  find_interface_sockets Sample.trivial_vtree Sample.trivial_graph [] []
  = Ok ([ {| ds_id := 0 |}; {| ds_id := 1 |} ], [ {| ds_id := 0 |} ]).
Proof. vm_compute. reflexivity. Qed.

Example fanout_vtree_nodes :
  vt_nodes (frozen_vtree Sample.fanout_tree)
  = [Sample.fanout_input_node; Sample.fanout_output_node].
Proof. reflexivity. Qed.

(** A data graph outside the precondition of [add_new]: the two inputs
    of the output node share a data socket, and the model stops at the
    second [add_new] of it. *)
Example fanout_find_interface_sockets :
  find_interface_sockets (frozen_vtree Sample.fanout_tree) Sample.fanout_graph [] []
  = Abort ValueAlreadyContained.
Proof. vm_compute. reflexivity. Qed.

(** ** What [add_all] produces *)

Lemma lookup_socket_Ok data_graph vsocket dsocket :
  lookup_socket data_graph vsocket = Ok dsocket
  <-> looked_up data_graph vsocket dsocket.
Proof.
  unfold lookup_socket, looked_up.
  destruct (dg_socket_map data_graph !! vs_id vsocket); split; congruence.
Qed.

Lemma add_new_Ok r value r' :
  VectorSet.add_new r value = Ok r' <-> (value ∉ r) /\ r' = r ++ [value].
Proof.
  unfold VectorSet.add_new, VectorSet.contains.
  case_bool_decide; split.
  - discriminate.
  - intros [Hn _]. contradiction.
  - intros [= <-]. auto.
  - intros [_ ->]. reflexivity.
Qed.

(** [add_all] completes exactly when every socket has a data socket and
    these are new to the set and pairwise distinct; it appends them in
    order. *)
Lemma add_all_Ok data_graph sockets :
  forall r r',
    add_all data_graph sockets r = Ok r' <->
    exists ds, Forall2 (looked_up data_graph) sockets ds /\ r' = r ++ ds
               /\ NoDup ds /\ (forall d, d ∈ ds -> d ∉ r).
Proof.
  induction sockets as [|vsocket rest IH]; intros r r'; simpl.
  - split.
    + intros [= <-]. exists []. rewrite app_nil_r.
      repeat split; [constructor | constructor | intros d Hd; inversion Hd].
    + intros (ds & HF & -> & _). inversion HF. rewrite app_nil_r. reflexivity.
  - rewrite bind_Ok. split.
    + intros (d & Hd & Hrest). apply lookup_socket_Ok in Hd.
      apply bind_Ok in Hrest as (r1 & Hadd & Hrest).
      apply add_new_Ok in Hadd as [Hnew ->].
      apply IH in Hrest as (ds & HF & -> & Hnd & Hfresh).
      exists (d :: ds). rewrite <- app_assoc. repeat split.
      * constructor; assumption.
      * constructor; [|assumption].
        intros Hin. apply (Hfresh d Hin). apply elem_of_app. right. constructor.
      * intros x Hx Hr. apply elem_of_cons in Hx as [->|Hx]; [contradiction|].
        apply (Hfresh x Hx). apply elem_of_app. left. assumption.
    + intros (ds & HF & -> & Hnd & Hfresh).
      inversion HF as [|? d ? ds' Hd HF']; subst.
      exists d. split; [apply lookup_socket_Ok; assumption|].
      apply bind_Ok. exists (r ++ [d]). split.
      * apply add_new_Ok. split; [|reflexivity]. apply Hfresh. constructor.
      * apply IH. exists ds'. rewrite <- app_assoc.
        apply NoDup_cons in Hnd as [Hd' Hnd].
        repeat split; try assumption.
        intros x Hx Hr. apply elem_of_app in Hr as [Hr|Hr].
        -- apply (Hfresh x); [right|]; assumption.
        -- apply list_elem_of_singleton in Hr. subst. contradiction.
Qed.

Lemma add_all_empty_Ok data_graph sockets r' :
  add_all data_graph sockets [] = Ok r' <->
  Forall2 (looked_up data_graph) sockets r' /\ NoDup r'.
Proof.
  rewrite add_all_Ok. split.
  - intros (ds & HF & -> & Hnd & _). auto.
  - intros [HF Hnd]. exists r'. repeat split; try assumption.
    intros d _ Hd. inversion Hd.
Qed.

(** [add_all] never runs out of fuel and never leaves the array. *)
Lemma add_all_faults data_graph sockets :
  forall r,
    match add_all data_graph sockets r with
    | Ok _ => True
    | Abort f => f = SocketNotMapped \/ f = ValueAlreadyContained
    | Timeout => False
    end.
Proof.
  induction sockets as [|vsocket rest IH]; intros r; simpl; [exact I|].
  unfold lookup_socket.
  destruct (dg_socket_map data_graph !! vs_id vsocket) as [d|]; simpl; [|auto].
  unfold VectorSet.add_new. destruct (VectorSet.contains r d); simpl; [auto|].
  apply IH.
Qed.


(** ** Interface socket discovery *)

Lemma find_interface_sockets_sides vtree data_graph r_inputs r_outputs :
  find_interface_sockets vtree data_graph r_inputs r_outputs
  = (r_inputs' ← discover_side data_graph
       (head (VTree.nodes_with_idname vtree fn_FunctionInputNode))
       vn_outputs r_inputs;
     r_outputs' ← discover_side data_graph
       (head (VTree.nodes_with_idname vtree fn_FunctionOutputNode))
       vn_inputs r_outputs;
     Ok (r_inputs', r_outputs')).
Proof. reflexivity. Qed.

Lemma nodes_with_idname_none vtree idname :
  (forall n, n ∈ vt_nodes vtree -> vn_idname n <> idname) ->
  VTree.nodes_with_idname vtree idname = [].
Proof.
  intros H. unfold VTree.nodes_with_idname.
  induction (vt_nodes vtree) as [|n nodes IH]; [reflexivity|].
  rewrite filter_cons_False.
  - apply IH. intros m Hm. apply H. right. assumption.
  - apply H. left.
Qed.

(** The outcome of a node with at least one socket. *)
Lemma discover_side_Ok data_graph n sockets_of r' :
  1 <= VTree.size (sockets_of n) <= UInt.max ->
  discover_side data_graph (Some n) sockets_of [] = Ok r' <->
  Forall2 (looked_up data_graph) (removelast (sockets_of n)) r' /\ NoDup r'.
Proof.
  intros Hsize. rewrite discover_side_add_all by assumption.
  apply add_all_empty_Ok.
Qed.

(** With an input and an output pseudo-node that have at least one socket
    each, the call completes exactly when every declared socket but the
    last has a data socket and these are pairwise distinct on each
    side. *)
Lemma find_interface_sockets_Ok vtree data_graph n_in n_out ins outs :
  head (VTree.nodes_with_idname vtree fn_FunctionInputNode) = Some n_in ->
  head (VTree.nodes_with_idname vtree fn_FunctionOutputNode) = Some n_out ->
  1 <= VTree.size (vn_outputs n_in) <= UInt.max ->
  1 <= VTree.size (vn_inputs n_out) <= UInt.max ->
  find_interface_sockets vtree data_graph [] [] = Ok (ins, outs) <->
    (Forall2 (looked_up data_graph) (removelast (vn_outputs n_in)) ins
     /\ NoDup ins)
    /\ (Forall2 (looked_up data_graph) (removelast (vn_inputs n_out)) outs
        /\ NoDup outs).
Proof.
  intros Hin Hout Hsin Hsout.
  rewrite find_interface_sockets_sides, Hin, Hout.
  rewrite <- (discover_side_Ok data_graph n_in vn_outputs ins Hsin).
  rewrite <- (discover_side_Ok data_graph n_out vn_inputs outs Hsout).
  rewrite bind_Ok. split.
  - intros (i & Hi & Hrest). apply bind_Ok in Hrest as (o & Ho & [= -> ->]).
    auto.
  - intros [Hi Ho]. exists ins. split; [assumption|].
    apply bind_Ok. exists outs. auto.
Qed.



(** C3.  In a virtual tree without a node of the input pseudo-kind the
    call leaves the input set as it was handed in (empty, when it starts
    empty as in [generate_function]) and the missing node causes no
    fault: the outcome of the call is the outcome of the output side
    alone.  Symmetrically for a missing output pseudo-node.  Without a
    node of either kind the call completes and changes neither set. *)
Theorem find_interface_sockets_missing_node vtree data_graph r_inputs r_outputs :
  ((forall n, n ∈ vt_nodes vtree -> vn_idname n <> fn_FunctionInputNode) ->
   find_interface_sockets vtree data_graph r_inputs r_outputs
   = (fun r_outputs' => (r_inputs, r_outputs'))
       <$> discover_side data_graph
             (head (VTree.nodes_with_idname vtree fn_FunctionOutputNode))
             vn_inputs r_outputs)
  /\ ((forall n, n ∈ vt_nodes vtree -> vn_idname n <> fn_FunctionOutputNode) ->
      find_interface_sockets vtree data_graph r_inputs r_outputs
      = (fun r_inputs' => (r_inputs', r_outputs))
          <$> discover_side data_graph
                (head (VTree.nodes_with_idname vtree fn_FunctionInputNode))
                vn_outputs r_inputs)
  /\ ((forall n, n ∈ vt_nodes vtree -> vn_idname n <> fn_FunctionInputNode) ->
      (forall n, n ∈ vt_nodes vtree -> vn_idname n <> fn_FunctionOutputNode) ->
      find_interface_sockets vtree data_graph r_inputs r_outputs
      = Ok (r_inputs, r_outputs)).
Proof.
  split; [|split]; intros Hnone; [| |intros Hnone'];
    rewrite find_interface_sockets_sides;
    rewrite ?(nodes_with_idname_none _ _ Hnone);
    rewrite ?(nodes_with_idname_none _ _ Hnone'); simpl.
  - destruct (discover_side _ _ vn_inputs _); reflexivity.
  - destruct (discover_side _ _ vn_outputs _); reflexivity.
  - reflexivity.
Qed.

Lemma find_interface_sockets_missing_node_witness :
  find_interface_sockets VTree.empty Sample.trivial_graph [] [] = Ok ([], [])
  /\ find_interface_sockets
       {| vt_nodes := [Sample.trivial_output_node]; vt_links := []; vt_frozen := true |}
       Sample.trivial_graph [] []
     = Ok ([], [ {| ds_id := 0 |} ]).
Proof.
  split.
  - apply (proj2 (proj2 (find_interface_sockets_missing_node
                           VTree.empty Sample.trivial_graph [] [])));
      intros n Hn; inversion Hn.
  - apply (proj1 (find_interface_sockets_missing_node
                    {| vt_nodes := [Sample.trivial_output_node];
                       vt_links := []; vt_frozen := true |}
                    Sample.trivial_graph [] [])).
    intros n Hn. apply list_elem_of_singleton in Hn. subst n. discriminate.
Defined.

(** C9.  The bound of the discovery loop is the socket count minus one in
    [uint] arithmetic.  For a pseudo-node without sockets it wraps to
    2^32 - 1 and the first socket access is outside the array; the call
    leaves an array only then: when every pseudo-node that is present has
    at least one socket, every access is in range. *)
Theorem find_interface_sockets_index_in_range vtree data_graph r_inputs r_outputs :
  (forall n, head (VTree.nodes_with_idname vtree fn_FunctionInputNode) = Some n ->
             VTree.size (vn_outputs n) <= UInt.max) ->
  (forall n, head (VTree.nodes_with_idname vtree fn_FunctionOutputNode) = Some n ->
             VTree.size (vn_inputs n) <= UInt.max) ->
  loop_bound [] = 2 ^ 32 - 1
  /\ (forall n sockets_of r,
        sockets_of n = [] ->
        discover_side data_graph (Some n) sockets_of r = Abort IndexOutOfRange)
  /\ (forall n,
        head (VTree.nodes_with_idname vtree fn_FunctionInputNode) = Some n ->
        vn_outputs n = [] ->
        find_interface_sockets vtree data_graph r_inputs r_outputs
        = Abort IndexOutOfRange)
  /\ (find_interface_sockets vtree data_graph r_inputs r_outputs
      = Abort IndexOutOfRange ->
      (exists n, head (VTree.nodes_with_idname vtree fn_FunctionInputNode) = Some n
                 /\ vn_outputs n = [])
      \/ (exists n, head (VTree.nodes_with_idname vtree fn_FunctionOutputNode) = Some n
                    /\ vn_inputs n = [])).
Proof.
  intros Hsin Hsout.
  assert (forall n sockets_of r,
            VTree.size (sockets_of n) <= UInt.max ->
            discover_side data_graph (Some n) sockets_of r = Abort IndexOutOfRange ->
            sockets_of n = []) as Hside.
  { intros n sockets_of r Hsize Hrun.
    destruct (sockets_of n) as [|vsocket rest] eqn:Hs; [reflexivity|].
    exfalso. rewrite discover_side_add_all in Hrun.
    - pose proof (add_all_faults data_graph (removelast (sockets_of n)) r) as Hf.
      rewrite Hrun in Hf. destruct Hf; discriminate.
    - rewrite Hs in *. unfold VTree.size in *. simpl length in *. lia. }
  split; [reflexivity|].
  split; [intros; apply discover_side_no_sockets; assumption|].
  split.
  - intros n Hn Hempty. rewrite find_interface_sockets_sides, Hn.
    rewrite discover_side_no_sockets by assumption. reflexivity.
  - rewrite find_interface_sockets_sides. intros Hrun.
    destruct (head (VTree.nodes_with_idname vtree fn_FunctionInputNode))
      as [n_in|] eqn:Hin.
    + destruct (discover_side data_graph (Some n_in) vn_outputs r_inputs)
        as [r_inputs'|f|] eqn:Hi; simpl in Hrun; try discriminate.
      * destruct (head (VTree.nodes_with_idname vtree fn_FunctionOutputNode))
          as [n_out|] eqn:Hout; [|discriminate].
        destruct (discover_side data_graph (Some n_out) vn_inputs r_outputs)
          as [r_outputs'|f|] eqn:Ho; simpl in Hrun; try discriminate.
        injection Hrun as ->. right. exists n_out. split; [reflexivity|].
        apply (Hside n_out vn_inputs r_outputs); auto.
      * injection Hrun as ->. left. exists n_in. split; [reflexivity|].
        apply (Hside n_in vn_outputs r_inputs); auto.
    + simpl in Hrun.
      destruct (head (VTree.nodes_with_idname vtree fn_FunctionOutputNode))
        as [n_out|] eqn:Hout; [|discriminate].
      destruct (discover_side data_graph (Some n_out) vn_inputs r_outputs)
        as [r_outputs'|f|] eqn:Ho; simpl in Hrun; try discriminate.
      injection Hrun as ->. right. exists n_out. split; [reflexivity|].
      apply (Hside n_out vn_inputs r_outputs); auto.
Qed.

(** C10.  With several nodes of the input pseudo-kind in the tree, the
    input side of the interface is the one of the first of them (index 0
    of the idname lookup): the other nodes of that kind do not occur in
    the outcome of the call, and their presence causes no fault.  The
    same holds for several nodes of the output pseudo-kind. *)
Theorem find_interface_sockets_first_node
    vtree data_graph n others r_inputs r_outputs :
  (VTree.nodes_with_idname vtree fn_FunctionInputNode = n :: others ->
   find_interface_sockets vtree data_graph r_inputs r_outputs
   = (r_inputs' ← discover_side data_graph (Some n) vn_outputs r_inputs;
      r_outputs' ← discover_side data_graph
        (head (VTree.nodes_with_idname vtree fn_FunctionOutputNode))
        vn_inputs r_outputs;
      Ok (r_inputs', r_outputs')))
  /\ (VTree.nodes_with_idname vtree fn_FunctionOutputNode = n :: others ->
      find_interface_sockets vtree data_graph r_inputs r_outputs
      = (r_inputs' ← discover_side data_graph
           (head (VTree.nodes_with_idname vtree fn_FunctionInputNode))
           vn_outputs r_inputs;
         r_outputs' ← discover_side data_graph (Some n) vn_inputs r_outputs;
         Ok (r_inputs', r_outputs'))).
Proof.
  split; intros Hnodes; rewrite find_interface_sockets_sides, Hnodes;
    reflexivity.
Qed.

(** The outcome depends on the tree through the first node of either
    kind only. *)
Lemma find_interface_sockets_heads vtree vtree' data_graph r_inputs r_outputs :
  head (VTree.nodes_with_idname vtree fn_FunctionInputNode)
  = head (VTree.nodes_with_idname vtree' fn_FunctionInputNode) ->
  head (VTree.nodes_with_idname vtree fn_FunctionOutputNode)
  = head (VTree.nodes_with_idname vtree' fn_FunctionOutputNode) ->
  find_interface_sockets vtree data_graph r_inputs r_outputs
  = find_interface_sockets vtree' data_graph r_inputs r_outputs.
Proof.
  intros Hin Hout. rewrite !find_interface_sockets_sides, Hin, Hout.
  reflexivity.
Qed.

Lemma find_interface_sockets_first_node_witness :
  find_interface_sockets Sample.two_inputs_vtree Sample.trivial_graph [] []
  = Ok ([ {| ds_id := 0 |}; {| ds_id := 1 |} ], []).
Proof.
  rewrite (proj1 (find_interface_sockets_first_node
                    Sample.two_inputs_vtree Sample.trivial_graph
                    Sample.trivial_input_node [Sample.second_input_node]
                    [] []));
    reflexivity.
Defined.

Lemma find_interface_sockets_index_in_range_witness :
  find_interface_sockets Sample.bare_vtree Sample.trivial_graph [] []
  = Abort IndexOutOfRange.
Proof.
  assert (forall n,
            head (VTree.nodes_with_idname Sample.bare_vtree fn_FunctionInputNode)
            = Some n -> VTree.size (vn_outputs n) <= UInt.max) as Hin.
  { intros n [= <-]. vm_compute. discriminate. }
  assert (forall n,
            head (VTree.nodes_with_idname Sample.bare_vtree fn_FunctionOutputNode)
            = Some n -> VTree.size (vn_inputs n) <= UInt.max) as Hout.
  { intros n [=]. }
  destruct (find_interface_sockets_index_in_range
              Sample.bare_vtree Sample.trivial_graph [] [] Hin Hout)
    as (_ & _ & Hzero & _).
  apply (Hzero Sample.bare_input_node); reflexivity.
Defined.

(** ** The loop model has enough fuel *)

Lemma loop_bound_range sockets : 0 <= loop_bound sockets <= UInt.max.
Proof.
  unfold loop_bound, UInt.sub, UInt.wrap, UInt.max.
  assert (0 < UInt.modulus) as Hpos by reflexivity.
  pose proof (Z.mod_pos_bound (VTree.size sockets - 1) UInt.modulus Hpos).
  lia.
Qed.

Lemma discover_loop_no_timeout data_graph sockets bound :
  bound <= UInt.max ->
  forall (fuel : nat) (i : Z) (r : VectorSet.t),
    0 <= i -> (1 <= fuel)%nat -> VTree.size sockets - i + 1 <= Z.of_nat fuel ->
    discover_loop fuel data_graph sockets bound i r <> Timeout.
Proof.
  intros Hmax. induction fuel as [|fuel IH]; intros i r Hi Hone Hfuel; [lia|].
  simpl. destruct (i <? bound) eqn:Hlt; [|discriminate].
  apply Z.ltb_lt in Hlt.
  unfold VTree.socket_at.
  destruct (sockets !! Z.to_nat i) as [vsocket|] eqn:Hvs; simpl; [|discriminate].
  apply lookup_lt_Some in Hvs. unfold VTree.size in Hfuel.
  unfold lookup_socket.
  destruct (dg_socket_map data_graph !! vs_id vsocket) as [d|]; simpl;
    [|discriminate].
  unfold VectorSet.add_new. destruct (VectorSet.contains r d); simpl;
    [discriminate|].
  rewrite uint_add_one by lia. apply IH; unfold VTree.size; lia.
Qed.

Lemma discover_side_no_timeout data_graph node sockets_of r :
  discover_side data_graph node sockets_of r <> Timeout.
Proof.
  destruct node as [n|]; [|discriminate].
  unfold discover_side. apply discover_loop_no_timeout.
  - apply loop_bound_range.
  - lia.
  - lia.
  - unfold VTree.size. lia.
Qed.

(** Whatever the tree and the graph, the model of the call does not run
    out of fuel: the call completes or ends in a fault. *)
Lemma find_interface_sockets_no_timeout vtree data_graph r_inputs r_outputs :
  find_interface_sockets vtree data_graph r_inputs r_outputs <> Timeout.
Proof.
  rewrite find_interface_sockets_sides.
  pose proof (discover_side_no_timeout data_graph
    (head (VTree.nodes_with_idname vtree fn_FunctionInputNode))
    vn_outputs r_inputs) as Hi.
  pose proof (discover_side_no_timeout data_graph
    (head (VTree.nodes_with_idname vtree fn_FunctionOutputNode))
    vn_inputs r_outputs) as Ho.
  destruct (discover_side _ _ vn_outputs _); simpl; try congruence.
  destruct (discover_side _ _ vn_inputs _); simpl; congruence.
Qed.

(** ** Function generation *)

Lemma heap_fresh (h : gmap ptr HeapObject) : h !! fresh (dom h) = None.
Proof. apply not_elem_of_dom_1, is_fresh. Qed.

Lemma update_vtree_insert p vtree method (h : gmap ptr HeapObject) :
  Heap.update_vtree p method (<[p := ObjVTree vtree]> h)
  = Ok (tt, <[p := ObjVTree (method vtree)]> h).
Proof.
  unfold Heap.update_vtree, Heap.bind, Heap.deref_vtree, Heap.store.
  rewrite lookup_insert_eq, insert_insert_eq. reflexivity.
Qed.

Lemma update_function_insert p fn method (h : gmap ptr HeapObject) :
  Heap.update_function p method (<[p := ObjFunction fn]> h)
  = Ok (tt, <[p := ObjFunction (method fn)]> h).
Proof.
  unfold Heap.update_function, Heap.bind, Heap.deref_function, Heap.store.
  rewrite lookup_insert_eq, insert_insert_eq. reflexivity.
Qed.

Section GenerationFacts.

Variable generate_graph : VirtualNodeTree -> option VTreeDataGraph.

(** What a run of [generate_function] amounts to. *)
Lemma generate_function_run btree (h : gmap ptr HeapObject) :
  let vt := frozen_vtree btree in
  let vtree := fresh (dom h) in
  let h1 := <[vtree := ObjVTree vt]> h in
  generate_function generate_graph btree h
  = match generate_graph vt with
    | None => Ok (None, h)
    | Some graph =>
        let data_graph := fresh (dom h1) in
        let h2 := <[data_graph := ObjDataGraph graph]> h1 in
        match find_interface_sockets vt graph [] [] with
        | Ok (input_sockets, output_sockets) =>
            let fgraph := {| fg_graph := dg_graph graph;
                             fg_inputs := input_sockets;
                             fg_outputs := output_sockets |} in
            let fn := fresh (dom h2) in
            Ok (Some fn,
                <[fn := ObjFunction
                    {| fn_name := id_name btree;
                       fn_inputs := input_sockets;
                       fn_outputs := output_sockets;
                       fn_bodies := [DependenciesBody fgraph;
                                     LLVMBuildIRBody fgraph;
                                     FGraphTupleCallBody fgraph];
                       fn_resources := [(vtree, "Virtual Node Tree"%string);
                                        (data_graph, "VTreeDataGraph"%string)] |}]> h2)
        | Abort f => Abort f
        | Timeout => Timeout
        end
    end.
Proof.
  intros vt vtree h1.
  unfold generate_function, Heap.bind at 1, Heap.make_unique at 1.
  fold vtree.
  unfold Heap.bind at 1. rewrite update_vtree_insert.
  unfold Heap.bind at 1. rewrite update_vtree_insert.
  fold (frozen_vtree btree). fold vt. fold h1.
  unfold Heap.bind at 1, Heap.deref_vtree. unfold h1 at 1. rewrite lookup_insert_eq.
  destruct (generate_graph vt) as [graph|].
  - unfold Heap.bind at 1, Heap.make_unique at 1.
    unfold Heap.bind at 1, Heap.deref_data_graph. rewrite lookup_insert_eq.
    unfold Heap.bind at 1, Heap.lift.
    destruct (find_interface_sockets vt graph VectorSet.empty VectorSet.empty)
      as [[input_sockets output_sockets]|f|] eqn:Hsockets;
      unfold VectorSet.empty in Hsockets; rewrite Hsockets; try reflexivity.
    unfold Heap.bind at 1, Heap.make_unique at 1.
    repeat (unfold Heap.bind at 1; rewrite update_function_insert).
    reflexivity.
  - unfold Heap.bind, Heap.destroy, Heap.ret. unfold h1.
    rewrite delete_insert_id by apply heap_fresh. reflexivity.
Qed.

(** C1.  When the graph construction reports failure by returning no
    value, [generate_function] returns the empty optional: the run ends
    regularly (no fault), no function exists, and the heap is the one
    from before the call, so nothing that was allocated stays behind. *)
Theorem generate_function_graph_failure btree (h : gmap ptr HeapObject) :
  generate_graph (frozen_vtree btree) = None ->
  generate_function generate_graph btree h = Ok (None, h).
Proof. intros Hfail. rewrite generate_function_run, Hfail. reflexivity. Qed.

(** C5.  When the graph construction succeeds and the interface
    discovery completes, [generate_function] returns a new function that
    is named after the tree, has exactly three bodies attached, in the
    order dependencies, compiled code, tuple call built from the function
    graph (none derived from the compiled body), and owns, in this order,
    the frozen virtual tree and the data graph, which both live on.  The
    objects that existed before are as they were.  When the discovery
    ends in a fault, so does the run. *)
Theorem generate_function_success btree (h : gmap ptr HeapObject) graph :
  generate_graph (frozen_vtree btree) = Some graph ->
  match find_interface_sockets (frozen_vtree btree) graph [] [] with
  | Ok (input_sockets, output_sockets) =>
      exists (vtree data_graph fn : ptr) (f : Function) (h' : gmap ptr HeapObject),
        generate_function generate_graph btree h = Ok (Some fn, h')
        /\ h' !! fn = Some (ObjFunction f)
        /\ fn_name f = id_name btree
        /\ (let fgraph := {| fg_graph := dg_graph graph;
                             fg_inputs := input_sockets;
                             fg_outputs := output_sockets |} in
            fn_bodies f = [DependenciesBody fgraph;
                           LLVMBuildIRBody fgraph;
                           FGraphTupleCallBody fgraph])
        /\ (DerivedTupleCallBody ∉ fn_bodies f)
        /\ fn_resources f = [(vtree, "Virtual Node Tree"%string);
                             (data_graph, "VTreeDataGraph"%string)]
        /\ h' !! vtree = Some (ObjVTree (frozen_vtree btree))
        /\ h' !! data_graph = Some (ObjDataGraph graph)
        /\ h !! vtree = None /\ h !! data_graph = None /\ h !! fn = None
        /\ (forall p, is_Some (h !! p) -> h' !! p = h !! p)
  | Abort f => generate_function generate_graph btree h = Abort f
  | Timeout => False
  end.
Proof.
  intros Hgraph. rewrite generate_function_run, Hgraph. cbv zeta.
  pose proof (find_interface_sockets_no_timeout (frozen_vtree btree) graph [] [])
    as Htotal.
  destruct (find_interface_sockets (frozen_vtree btree) graph [] [])
    as [[input_sockets output_sockets]|f|]; [|reflexivity|congruence].
  set (vtree := fresh (dom h)).
  set (h1 := <[vtree := ObjVTree (frozen_vtree btree)]> h).
  set (data_graph := fresh (dom h1)).
  set (h2 := <[data_graph := ObjDataGraph graph]> h1).
  set (fn := fresh (dom h2)).
  assert (h !! vtree = None) as Hv by apply heap_fresh.
  assert (h1 !! data_graph = None) as Hd by apply heap_fresh.
  assert (h2 !! fn = None) as Hf by apply heap_fresh.
  assert (data_graph <> vtree) as Hdv.
  { intros Heq. rewrite Heq in Hd. unfold h1 in Hd.
    rewrite lookup_insert_eq in Hd. discriminate. }
  assert (fn <> data_graph) as Hfd.
  { intros Heq. rewrite Heq in Hf. unfold h2 in Hf.
    rewrite lookup_insert_eq in Hf. discriminate. }
  assert (fn <> vtree) as Hfv.
  { intros Heq. rewrite Heq in Hf. unfold h2, h1 in Hf.
    rewrite lookup_insert_ne, lookup_insert_eq in Hf by assumption.
    discriminate. }
  eexists vtree, data_graph, fn, _, _. split; [reflexivity|].
  split; [apply lookup_insert_eq|].
  split; [reflexivity|].
  split; [reflexivity|].
  split.
  { simpl. intros Hin. repeat (apply elem_of_cons in Hin as [Hin|Hin];
      [discriminate|]). inversion Hin. }
  split; [reflexivity|].
  split.
  { unfold h2, h1. rewrite !lookup_insert_ne by auto. apply lookup_insert_eq. }
  split.
  { unfold h2. rewrite lookup_insert_ne by auto. apply lookup_insert_eq. }
  assert (h !! data_graph = None) as Hd'.
  { unfold h1 in Hd. rewrite lookup_insert_ne in Hd by auto. assumption. }
  assert (h !! fn = None) as Hf'.
  { unfold h2, h1 in Hf. rewrite !lookup_insert_ne in Hf by auto. assumption. }
  repeat (split; [assumption|]).
  intros p [o Hp]. unfold h2, h1.
  rewrite !lookup_insert_ne; [reflexivity| | |]; intros <-; congruence.
Qed.

End GenerationFacts.

Lemma generate_function_graph_failure_witness :
  generate_function Sample.failing_generate_graph Sample.trivial_tree ∅
  = Ok (None, ∅).
Proof.
  apply (generate_function_graph_failure
           Sample.failing_generate_graph Sample.trivial_tree ∅).
  reflexivity.
Defined.

Lemma generate_function_success_witness :
  exists (fn : ptr) (f : Function) (h' : gmap ptr HeapObject),
    generate_function Sample.trivial_generate_graph Sample.trivial_tree ∅
    = Ok (Some fn, h')
    /\ h' !! fn = Some (ObjFunction f)
    /\ fn_name f = "NTTrivial"%string.
Proof.
  pose proof (generate_function_success
                Sample.trivial_generate_graph Sample.trivial_tree ∅
                Sample.trivial_graph eq_refl) as Hrun.
  change (frozen_vtree Sample.trivial_tree) with Sample.trivial_vtree in Hrun.
  rewrite trivial_find_interface_sockets in Hrun.
  destruct Hrun as (vtree & data_graph & fn & f & h' & Hrun & Hfn & Hname & _).
  exists fn, f, h'. auto.
Defined.

(** C4.  For the trivial tree (an input node with two outputs and the
    placeholder, an output node with one input and the placeholder,
    linked directly) and a graph construction that succeeds with a graph
    in which the two outputs have their own data sockets and the input
    has one, [generate_function] returns a function with 2 inputs and
    1 output. *)
Theorem generate_function_trivial_tree
    (generate_graph : VirtualNodeTree -> option VTreeDataGraph)
    (graph : VTreeDataGraph) (h : gmap ptr HeapObject)
    (d_a d_b d_result : DataSocket) :
  generate_graph (frozen_vtree Sample.trivial_tree) = Some graph ->
  dg_socket_map graph !! 0%nat = Some d_a ->
  dg_socket_map graph !! 1%nat = Some d_b ->
  d_a <> d_b ->
  dg_socket_map graph !! 3%nat = Some d_result ->
  exists (fn : ptr) (f : Function) (h' : gmap ptr HeapObject),
    generate_function generate_graph Sample.trivial_tree h = Ok (Some fn, h')
    /\ h' !! fn = Some (ObjFunction f)
    /\ Fn.input_amount f = 2
    /\ Fn.output_amount f = 1.
Proof.
  intros Hgraph Ha Hb Hab Hresult.
  assert (find_interface_sockets (frozen_vtree Sample.trivial_tree) graph [] []
          = Ok ([d_a; d_b], [d_result])) as Hsockets.
  { apply (find_interface_sockets_Ok _ _
             Sample.trivial_input_node Sample.trivial_output_node);
      try reflexivity; try (vm_compute; split; discriminate).
    split; split.
    - repeat constructor; assumption.
    - repeat constructor; [|inversion 1].
      intros Hin. apply list_elem_of_singleton in Hin. contradiction.
    - repeat constructor; assumption.
    - repeat constructor. inversion 1. }
  rewrite generate_function_run, Hgraph. cbv zeta. rewrite Hsockets.
  eexists _, _, _. split; [reflexivity|].
  split; [apply lookup_insert_eq|].
  split; reflexivity.
Qed.

Lemma generate_function_trivial_tree_witness :
  exists (fn : ptr) (f : Function) (h' : gmap ptr HeapObject),
    generate_function Sample.trivial_generate_graph Sample.trivial_tree ∅
    = Ok (Some fn, h')
    /\ h' !! fn = Some (ObjFunction f)
    /\ Fn.input_amount f = 2
    /\ Fn.output_amount f = 1.
Proof.
  apply (generate_function_trivial_tree
           Sample.trivial_generate_graph Sample.trivial_graph ∅
           {| ds_id := 0 |} {| ds_id := 1 |} {| ds_id := 0 |}).
  - reflexivity.
  - vm_compute. reflexivity.
  - vm_compute. reflexivity.
  - discriminate.
  - vm_compute. reflexivity.
Defined.

(** ** The frame stack *)

Lemma pop_push ctx frame : Stack.pop (Stack.push ctx frame) = Ok ctx.
Proof.
  unfold Stack.pop, Stack.push. simpl.
  destruct (ctx_stack ctx ++ [frame]) as [|f rest] eqn:Hstack.
  - destruct (ctx_stack ctx); discriminate.
  - rewrite <- Hstack, removelast_last. destruct ctx. reflexivity.
Qed.

Lemma pop_same_stack ctx ctx' frame :
  ctx_stack ctx' = ctx_stack (Stack.push ctx frame) -> Stack.pop ctx' = Ok ctx.
Proof.
  intros Hstack. rewrite <- (pop_push ctx frame).
  destruct ctx', (Stack.push ctx frame). simpl in Hstack. subst. reflexivity.
Qed.

Section Framing.

Variable this : TupleCallBody.
Variable lazy_this : LazyInTupleCallBody.

(** The implementations of [call] leave the frame stack as they found
    it. *)
Hypothesis call_balanced : forall fn_in fn_out ctx,
  ctx_stack (res_ctx (tcb_call this fn_in fn_out ctx)) = ctx_stack ctx.
Hypothesis lazy_call_balanced : forall fn_in fn_out ctx state,
  ctx_stack (lres_ctx (lazy_call lazy_this fn_in fn_out ctx state)) = ctx_stack ctx.

Lemma call__setup_stack_run fn_in fn_out ctx :
  let r := tcb_call this fn_in fn_out
             (Stack.push ctx (TextStackFrame (fn_name (tcb_owner this)))) in
  TupleCall.call__setup_stack this fn_in fn_out ctx
  = Ok {| res_in := res_in r; res_out := res_out r; res_ctx := ctx |}.
Proof.
  intros r. unfold TupleCall.call__setup_stack. fold r.
  rewrite (pop_same_stack ctx (res_ctx r)
             (TextStackFrame (fn_name (tcb_owner this)))); [reflexivity|].
  apply call_balanced.
Qed.

Lemma call__setup_stack_frame_run fn_in fn_out ctx extra_frame :
  let r := tcb_call this fn_in fn_out
             (Stack.push (Stack.push ctx extra_frame)
                (TextStackFrame (fn_name (tcb_owner this)))) in
  TupleCall.call__setup_stack_frame this fn_in fn_out ctx extra_frame
  = Ok {| res_in := res_in r; res_out := res_out r; res_ctx := ctx |}.
Proof.
  intros r. unfold TupleCall.call__setup_stack_frame.
  rewrite call__setup_stack_run. simpl. rewrite pop_push. reflexivity.
Qed.

Lemma lazy_call__setup_stack_run fn_in fn_out ctx state :
  let r := lazy_call lazy_this fn_in fn_out
             (Stack.push ctx (TextStackFrame (fn_name (lazy_owner lazy_this))))
             state in
  LazyCall.call__setup_stack lazy_this fn_in fn_out ctx state
  = Ok {| lres_in := lres_in r; lres_out := lres_out r;
          lres_ctx := ctx; lres_state := lres_state r |}.
Proof.
  intros r. unfold LazyCall.call__setup_stack. fold r.
  rewrite (pop_same_stack ctx (lres_ctx r)
             (TextStackFrame (fn_name (lazy_owner lazy_this)))); [reflexivity|].
  apply lazy_call_balanced.
Qed.

Lemma lazy_call__setup_stack_frame_run fn_in fn_out ctx state extra_frame :
  let r := lazy_call lazy_this fn_in fn_out
             (Stack.push (Stack.push ctx extra_frame)
                (TextStackFrame (fn_name (lazy_owner lazy_this))))
             state in
  LazyCall.call__setup_stack_frame lazy_this fn_in fn_out ctx state extra_frame
  = Ok {| lres_in := lres_in r; lres_out := lres_out r;
          lres_ctx := ctx; lres_state := lres_state r |}.
Proof.
  intros r. unfold LazyCall.call__setup_stack_frame.
  rewrite lazy_call__setup_stack_run. simpl. rewrite pop_push. reflexivity.
Qed.

(** C6.  For a tuple-call body whose [call] leaves the frame stack as it
    found it, and every execution context: [call__setup_stack] runs
    [call] with a frame that carries the name of the owning function on
    top of the caller's stack (on top of the extra frame, when the caller
    supplies one), pops what it pushed, and returns with the frame stack
    the caller had before the call.  The same holds for the three
    [call__setup_stack] of the lazy body. *)
Theorem call__setup_stack_frames_balance
    fn_in fn_out ctx state extra_frame source_info :
  let name_frame := TextStackFrame (fn_name (tcb_owner this)) in
  let lazy_name_frame := TextStackFrame (fn_name (lazy_owner lazy_this)) in
  let source_frame := SourceInfoStackFrame source_info in
  let called_with frames :=
    tcb_call this fn_in fn_out {| ctx_stack := ctx_stack ctx ++ frames |} in
  let lazy_called_with frames :=
    lazy_call lazy_this fn_in fn_out {| ctx_stack := ctx_stack ctx ++ frames |}
      state in
  let returns r :=
    Ok {| res_in := res_in r; res_out := res_out r; res_ctx := ctx |} in
  let lazy_returns r :=
    Ok {| lres_in := lres_in r; lres_out := lres_out r;
          lres_ctx := ctx; lres_state := lres_state r |} in
  TupleCall.call__setup_stack this fn_in fn_out ctx
  = returns (called_with [name_frame])
  /\ TupleCall.call__setup_stack_frame this fn_in fn_out ctx extra_frame
     = returns (called_with [extra_frame; name_frame])
  /\ TupleCall.call__setup_stack_source this fn_in fn_out ctx source_info
     = returns (called_with [source_frame; name_frame])
  /\ LazyCall.call__setup_stack lazy_this fn_in fn_out ctx state
     = lazy_returns (lazy_called_with [lazy_name_frame])
  /\ LazyCall.call__setup_stack_frame lazy_this fn_in fn_out ctx state extra_frame
     = lazy_returns (lazy_called_with [extra_frame; lazy_name_frame])
  /\ LazyCall.call__setup_stack_source lazy_this fn_in fn_out ctx state source_info
     = lazy_returns (lazy_called_with [source_frame; lazy_name_frame]).
Proof.
  cbv zeta. unfold TupleCall.call__setup_stack_source,
    LazyCall.call__setup_stack_source.
  rewrite call__setup_stack_run, !call__setup_stack_frame_run,
    lazy_call__setup_stack_run, !lazy_call__setup_stack_frame_run.
  unfold Stack.push. simpl. rewrite <- !app_assoc. simpl.
  repeat split; reflexivity.
Qed.

End Framing.

Lemma call__setup_stack_frames_balance_witness :
  TupleCall.call__setup_stack_frame Sample.move_body
    [Some 1; Some 2] [None; None]
    {| ctx_stack := [TextStackFrame "caller"] |}
    (TextStackFrame "extra")
  = Ok {| res_in := [None; None];
          res_out := [Some 1; Some 2];
          res_ctx := {| ctx_stack := [TextStackFrame "caller"] |} |}
  /\ (LazyCall.call__setup_stack Sample.lazy_body
        [Some 1] [None]
        {| ctx_stack := [TextStackFrame "caller"] |}
        (Lazy.start_next_entry (Lazy.new 0%nat)))
     = Ok {| lres_in := [Some 1];
             lres_out := [Some 1];
             lres_ctx := {| ctx_stack := [TextStackFrame "caller"] |};
             lres_state :=
               Lazy.request_input (Lazy.start_next_entry (Lazy.new 0%nat)) 0 |}.
Proof.
  destruct (call__setup_stack_frames_balance
              Sample.move_body Sample.lazy_body
              (fun _ _ _ => eq_refl) (fun _ _ _ _ => eq_refl)
              [Some 1; Some 2] [None; None]
              {| ctx_stack := [TextStackFrame "caller"] |}
              (Lazy.start_next_entry (Lazy.new 0%nat))
              (TextStackFrame "extra") None)
    as (_ & Hframe & _ & _ & _ & _).
  destruct (call__setup_stack_frames_balance
              Sample.move_body Sample.lazy_body
              (fun _ _ _ => eq_refl) (fun _ _ _ _ => eq_refl)
              [Some 1] [None]
              {| ctx_stack := [TextStackFrame "caller"] |}
              (Lazy.start_next_entry (Lazy.new 0%nat))
              (TextStackFrame "extra") None)
    as (_ & _ & _ & Hlazy & _ & _).
  split; [exact Hframe | exact Hlazy].
Defined.

(** ** The lazy state *)

(** C7.  Whatever the state and whatever was requested before,
    [requested_inputs] right after [start_next_entry] is the empty
    vector. *)
Theorem start_next_entry_clears_requests (s : LazyState) (ops : list Lazy.Op) :
  Lazy.requested_inputs (Lazy.start_next_entry (Lazy.run ops s)) = [].
Proof. reflexivity. Qed.

Lemma step_keeps_done (s : LazyState) (op : Lazy.Op) :
  Lazy.is_done s = true -> Lazy.is_done (Lazy.step s op) = true.
Proof. destruct op; simpl; auto. Qed.

Lemma run_keeps_done (ops : list Lazy.Op) :
  forall s, Lazy.is_done s = true -> Lazy.is_done (Lazy.run ops s) = true.
Proof.
  induction ops as [|op ops IH]; intros s Hdone; simpl; [assumption|].
  apply IH, step_keeps_done, Hdone.
Qed.

(** C8.  Once [done] has been called, [is_done] is true in every state
    that any further sequence of [start_next_entry], [request_input] and
    [done] leads to. *)
Theorem done_is_terminal (s : LazyState) (ops : list Lazy.Op) :
  Lazy.is_done (Lazy.run ops (Lazy.done s)) = true.
Proof. apply run_keeps_done. reflexivity. Qed.

(** * Further properties *)

(** ** The lazy state between entries *)

Lemma run_app ops1 ops2 s :
  Lazy.run (ops1 ++ ops2) s = Lazy.run ops2 (Lazy.run ops1 s).
Proof. unfold Lazy.run. apply fold_left_app. Qed.

Lemma run_snoc ops op s :
  Lazy.run (ops ++ [op]) s = Lazy.step (Lazy.run ops s) op.
Proof. rewrite run_app. reflexivity. Qed.

Lemma entries_started_snoc ops op :
  entries_started (ops ++ [op])
  = entries_started ops + (if decide (op = Lazy.StartNextEntry) then 1 else 0).
Proof.
  unfold entries_started. rewrite filter_app, length_app.
  destruct (decide (op = Lazy.StartNextEntry)) as [->|Hne].
  - rewrite filter_cons_True by reflexivity. simpl. lia.
  - rewrite filter_cons_False by assumption. simpl. lia.
Qed.

Lemma entry_count_run user_data ops :
  m_entry_count (Lazy.run ops (Lazy.new user_data))
  = entries_started ops mod 2 ^ 32.
Proof.
  induction ops as [|op ops IH] using rev_ind; [reflexivity|].
  rewrite run_snoc, entries_started_snoc.
  destruct op; simpl; rewrite IH.
  - unfold UInt.add, UInt.wrap, UInt.modulus.
    rewrite Zplus_mod_idemp_l. reflexivity.
  - rewrite Z.add_0_r. reflexivity.
  - rewrite Z.add_0_r. reflexivity.
Qed.

(** X1.  The entry counter is a [uint] that only [start_next_entry]
    advances: after any run of operations on a new state,
    [is_first_entry] holds exactly when the number of entries started so
    far is 1 modulo 2^32.  So it holds during the first entry, and again
    during entry 2^32 + 1. *)
Theorem is_first_entry_counts_entries (user_data : ptr) (ops : list Lazy.Op) :
  Lazy.is_first_entry (Lazy.run ops (Lazy.new user_data))
  = (entries_started ops mod 2 ^ 32 =? 1).
Proof. unfold Lazy.is_first_entry. rewrite entry_count_run. reflexivity. Qed.

Lemma requests_of_snoc ops op :
  requests_of (ops ++ [op])
  = requests_of ops ++ match op with
                       | Lazy.RequestInput index => [index]
                       | _ => []
                       end.
Proof.
  unfold requests_of. rewrite omap_app. destruct op; reflexivity.
Qed.

(** X2.  Within an entry the requests pile up in call order, duplicates
    included: after [start_next_entry] and a run of operations that
    starts no further entry, [requested_inputs] is the list of the
    indices requested in that run, whatever was requested before the
    entry. *)
Theorem requested_inputs_of_entry (s : LazyState) (ops : list Lazy.Op) :
  Lazy.StartNextEntry ∉ ops ->
  Lazy.requested_inputs (Lazy.run ops (Lazy.start_next_entry s))
  = requests_of ops.
Proof.
  induction ops as [|op ops IH] using rev_ind; intros Hnone; [reflexivity|].
  rewrite run_snoc, requests_of_snoc.
  assert (Lazy.StartNextEntry ∉ ops) as Hops.
  { intros Hin. apply Hnone, elem_of_app. left. assumption. }
  assert (op <> Lazy.StartNextEntry) as Hop.
  { intros ->. apply Hnone, elem_of_app. right. constructor. }
  specialize (IH Hops). unfold Lazy.requested_inputs in *.
  destruct op; [contradiction| |]; simpl; rewrite IH.
  - reflexivity.
  - rewrite app_nil_r. reflexivity.
Qed.

Lemma requested_inputs_of_entry_witness :
  Lazy.requested_inputs
    (Lazy.run [Lazy.RequestInput 2; Lazy.RequestInput 0; Lazy.RequestInput 2]
       (Lazy.start_next_entry (Lazy.request_input (Lazy.new 0%nat) 7)))
  = [2; 0; 2].
Proof.
  apply (requested_inputs_of_entry
           (Lazy.request_input (Lazy.new 0%nat) 7)
           [Lazy.RequestInput 2; Lazy.RequestInput 0; Lazy.RequestInput 2]).
  intros Hin. repeat (apply elem_of_cons in Hin as [Hin|Hin]; [discriminate|]).
  inversion Hin.
Defined.

(** X3.  No operation on a lazy state changes the pointer to the user
    data: the buffer handed to the constructor is the one every entry
    sees. *)
Theorem user_data_persists (s : LazyState) (ops : list Lazy.Op) :
  Lazy.user_data (Lazy.run ops s) = Lazy.user_data s.
Proof.
  induction ops as [|op ops IH] using rev_ind; [reflexivity|].
  rewrite run_snoc. destruct op; exact IH.
Qed.

(** X4.  Only [done] marks a lazy state as done: after a run of
    operations [is_done] holds exactly when it held before or the run
    contains a call of [done].  In particular neither
    [start_next_entry] nor [request_input] is refused or changed by the
    done flag, and neither sets it. *)
Theorem is_done_iff_done_called (s : LazyState) (ops : list Lazy.Op) :
  Lazy.is_done (Lazy.run ops s) = true
  <-> Lazy.is_done s = true \/ Lazy.Done ∈ ops.
Proof.
  induction ops as [|op ops IH] using rev_ind.
  - split; [auto|]. intros [H|H]; [assumption|inversion H].
  - rewrite run_snoc, elem_of_app, list_elem_of_singleton.
    destruct op; simpl; unfold Lazy.is_done in *; simpl.
    + rewrite IH. split; [tauto|]. intros [H|[H|H]]; auto. discriminate.
    + rewrite IH. split; [tauto|]. intros [H|[H|H]]; auto. discriminate.
    + split; auto.
Qed.

(** ** Calls on a fresh execution context *)

Section FreshContext.

Variable this : TupleCallBody.

Hypothesis call_balanced : forall fn_in fn_out ctx,
  ctx_stack (res_ctx (tcb_call this fn_in fn_out ctx)) = ctx_stack ctx.

(** X5.  [call__setup_execution_context] runs [call] on a stack of its
    own that holds exactly one frame, the one named after the owning
    function, and ends with that stack empty again (for a [call] that
    leaves the frame stack as it found it). *)
Theorem call__setup_execution_context_run fn_in fn_out :
  let r := tcb_call this fn_in fn_out
             {| ctx_stack := [TextStackFrame (fn_name (tcb_owner this))] |} in
  TupleCall.call__setup_execution_context this fn_in fn_out
  = Ok {| res_in := res_in r; res_out := res_out r;
          res_ctx := {| ctx_stack := [] |} |}.
Proof.
  intros r. unfold TupleCall.call__setup_execution_context.
  rewrite (call__setup_stack_run this call_balanced). reflexivity.
Qed.

End FreshContext.

Lemma call__setup_execution_context_run_witness :
  TupleCall.call__setup_execution_context Sample.move_body [Some 5] [None]
  = Ok {| res_in := [None]; res_out := [Some 5];
          res_ctx := {| ctx_stack := [] |} |}.
Proof.
  apply (call__setup_execution_context_run
           Sample.move_body (fun _ _ _ => eq_refl) [Some 5] [None]).
Defined.

(** ** More on the interface socket discovery *)

Lemma add_all_agree data_graph data_graph' sockets :
  Forall (fun vsocket =>
            dg_socket_map data_graph !! vs_id vsocket
            = dg_socket_map data_graph' !! vs_id vsocket) sockets ->
  forall r, add_all data_graph sockets r = add_all data_graph' sockets r.
Proof.
  induction 1 as [|vsocket rest Hv _ IH]; intros r; simpl; [reflexivity|].
  unfold lookup_socket. rewrite Hv.
  destruct (dg_socket_map data_graph' !! vs_id vsocket) as [d|]; simpl;
    [|reflexivity].
  destruct (VectorSet.add_new r d); simpl; auto.
Qed.

Lemma discover_side_agree data_graph data_graph' node sockets_of r :
  (forall n, node = Some n ->
     VTree.size (sockets_of n) <= UInt.max
     /\ Forall (fun vsocket =>
                 dg_socket_map data_graph !! vs_id vsocket
                 = dg_socket_map data_graph' !! vs_id vsocket)
              (removelast (sockets_of n))) ->
  discover_side data_graph node sockets_of r
  = discover_side data_graph' node sockets_of r.
Proof.
  destruct node as [n|]; [|reflexivity]. intros Hagree.
  destruct (Hagree n eq_refl) as [Hsize Hsame].
  destruct (sockets_of n) as [|vsocket rest] eqn:Hs.
  - rewrite !discover_side_no_sockets by assumption. reflexivity.
  - assert (1 <= VTree.size (sockets_of n) <= UInt.max) as Hrange.
    { rewrite Hs in *. unfold VTree.size in *. simpl length in *. lia. }
    rewrite !discover_side_add_all by assumption.
    rewrite Hs. apply add_all_agree. assumption.
Qed.

(** X7.  The trailing placeholder socket is never looked up: two data
    graphs that agree on every declared socket but the last of the input
    node's outputs and of the output node's inputs give the same outcome,
    so the placeholders need no data socket. *)
Theorem find_interface_sockets_ignores_placeholder
    vtree data_graph data_graph' r_inputs r_outputs :
  (forall n,
     head (VTree.nodes_with_idname vtree fn_FunctionInputNode) = Some n ->
     VTree.size (vn_outputs n) <= UInt.max
     /\ Forall (fun vsocket =>
                 dg_socket_map data_graph !! vs_id vsocket
                 = dg_socket_map data_graph' !! vs_id vsocket)
              (removelast (vn_outputs n))) ->
  (forall n,
     head (VTree.nodes_with_idname vtree fn_FunctionOutputNode) = Some n ->
     VTree.size (vn_inputs n) <= UInt.max
     /\ Forall (fun vsocket =>
                 dg_socket_map data_graph !! vs_id vsocket
                 = dg_socket_map data_graph' !! vs_id vsocket)
              (removelast (vn_inputs n))) ->
  find_interface_sockets vtree data_graph r_inputs r_outputs
  = find_interface_sockets vtree data_graph' r_inputs r_outputs.
Proof.
  intros Hin Hout. rewrite !find_interface_sockets_sides.
  rewrite (discover_side_agree data_graph data_graph' _ vn_outputs r_inputs Hin).
  destruct (discover_side data_graph' _ vn_outputs r_inputs); simpl;
    try reflexivity.
  rewrite (discover_side_agree data_graph data_graph' _ vn_inputs r_outputs Hout).
  reflexivity.
Qed.

Lemma find_interface_sockets_ignores_placeholder_witness :
  find_interface_sockets Sample.trivial_vtree Sample.trivial_graph [] []
  = find_interface_sockets Sample.trivial_vtree Sample.placeholder_graph [] [].
Proof.
  apply (find_interface_sockets_ignores_placeholder
           Sample.trivial_vtree Sample.trivial_graph Sample.placeholder_graph).
  - intros n [= <-]. split; [vm_compute; discriminate|].
    repeat constructor.
  - intros n [= <-]. split; [vm_compute; discriminate|].
    repeat constructor.
Defined.

Lemma discover_loop_appends data_graph sockets bound :
  forall (fuel : nat) (i : Z) (r r' : VectorSet.t),
    discover_loop fuel data_graph sockets bound i r = Ok r' ->
    exists added, r' = r ++ added.
Proof.
  induction fuel as [|fuel IH]; intros i r r'; simpl;
    destruct (i <? bound); try discriminate;
    try (intros [= <-]; exists []; rewrite app_nil_r; auto).
  unfold VTree.socket_at.
  destruct (sockets !! Z.to_nat i) as [vsocket|]; simpl; [|discriminate].
  destruct (lookup_socket data_graph vsocket) as [d|f|]; simpl;
    try discriminate.
  destruct (VectorSet.add_new r d) as [r1|f|] eqn:Hadd; simpl;
    try discriminate.
  apply add_new_Ok in Hadd as [_ ->].
  intros Hrun. apply IH in Hrun as (added & ->).
  exists (d :: added). rewrite <- app_assoc. reflexivity.
Qed.

(** X8.  The discovery only appends: when it completes, each set still
    starts with what it held before, in the same order. *)
Theorem find_interface_sockets_appends
    vtree data_graph r_inputs r_outputs r_inputs' r_outputs' :
  find_interface_sockets vtree data_graph r_inputs r_outputs
  = Ok (r_inputs', r_outputs') ->
  (exists added, r_inputs' = r_inputs ++ added)
  /\ (exists added, r_outputs' = r_outputs ++ added).
Proof.
  rewrite find_interface_sockets_sides.
  assert (forall node sockets_of r r',
            discover_side data_graph node sockets_of r = Ok r' ->
            exists added, r' = r ++ added) as Hside.
  { intros [n|] sockets_of r r'.
    - unfold discover_side. apply discover_loop_appends.
    - intros [= <-]. exists []. rewrite app_nil_r. reflexivity. }
  intros Hrun. apply bind_Ok in Hrun as (i & Hi & Hrun).
  apply bind_Ok in Hrun as (o & Ho & [= <- <-]).
  apply Hside in Hi as (added_in & ->).
  apply Hside in Ho as (added_out & ->).
  eauto.
Qed.

Lemma find_interface_sockets_appends_witness :
  (exists added, [ {| ds_id := 0 |}; {| ds_id := 1 |} ] = [] ++ added)
  /\ (exists added, [ {| ds_id := 7 |}; {| ds_id := 0 |} ]
                    = [ {| ds_id := 7 |} ] ++ added).
Proof.
  apply (find_interface_sockets_appends
           Sample.trivial_vtree Sample.trivial_graph [] [ {| ds_id := 7 |} ]).
  vm_compute. reflexivity.
Defined.

(** * Removing linked nodes *)

Import NodeLink.

Lemma for_each_ext {A S : Type} (f g : S -> A -> Outcome S) (l : list A) :
  (forall s x, f s x = g s x) -> forall s, for_each f l s = for_each g l s.
Proof.
  intros Hfg. induction l as [|x l IH]; intros s; simpl; [reflexivity|].
  rewrite Hfg. destruct (g s x); simpl; auto.
Qed.

Lemma for_each_app {A S : Type} (f : S -> A -> Outcome S) (l1 l2 : list A) s :
  for_each f (l1 ++ l2) s = (s' ← for_each f l1 s; for_each f l2 s').
Proof.
  revert s. induction l1 as [|x l1 IH]; intros s; simpl; [reflexivity|].
  destruct (f s x); simpl; auto.
Qed.

(** ** The graph search behind both recursions *)

Section Search.

Variable seen : Node -> bool.
Variable mark : Node -> Node.

Hypothesis mark_seen : forall n, seen (mark n) = true.
Hypothesis mark_inputs : forall n, n_inputs (mark n) = n_inputs n.

Local Abbreviation seen_in := (NodeLink.seen_in seen).
Local Abbreviation unseen_in := (NodeLink.unseen_in seen).
Local Abbreviation changed := (NodeLink.changed seen mark).
Local Abbreviation extends := (NodeLink.extends seen mark).
Local Abbreviation unseen_bound := (NodeLink.unseen_bound seen).
Local Abbreviation searched := (NodeLink.searched seen mark).

Lemma sources_mark n : sources (mark n) = sources n.
Proof. unfold sources. rewrite mark_inputs. reflexivity. Qed.

Lemma extends_refl m : extends m m.
Proof. intros q. left. reflexivity. Qed.

Lemma extends_trans m1 m2 m3 : extends m1 m2 -> extends m2 m3 -> extends m1 m3.
Proof.
  intros H12 H23 q. destruct (H12 q) as [Heq|(n & Hn & Hs & Hm)].
  - destruct (H23 q) as [Heq'|(n & Hn & Hs & Hm)].
    + left. congruence.
    + right. exists n. rewrite <- Heq. auto.
  - right. exists n. split; [assumption|]. split; [assumption|].
    destruct (H23 q) as [Heq'|(n' & Hn' & Hs' & _)]; [congruence|].
    rewrite Hm in Hn'. injection Hn' as <-. rewrite mark_seen in Hs'.
    discriminate.
Qed.

Lemma extends_insert m p n :
  m !! p = Some n -> seen n = false -> extends m (<[p := mark n]> m).
Proof.
  intros Hp Hs q. destruct (decide (p = q)) as [<-|Hne].
  - right. exists n. rewrite lookup_insert_eq. auto.
  - left. apply lookup_insert_ne. assumption.
Qed.

Lemma extends_is_Some m m' q : extends m m' -> is_Some (m !! q) <-> is_Some (m' !! q).
Proof.
  intros Hext. destruct (Hext q) as [->|(n & Hn & _ & Hm)]; [reflexivity|].
  rewrite Hn, Hm. split; eauto.
Qed.

Lemma extends_edge m m' p q : extends m m' -> edge m p q <-> edge m' p q.
Proof.
  intros Hext. unfold edge.
  destruct (Hext p) as [->|(n & Hn & _ & Hm)]; [reflexivity|].
  rewrite Hn, Hm. split.
  - intros (n' & [= <-] & Hq). exists (mark n). rewrite sources_mark. auto.
  - intros (n' & [= <-] & Hq). exists n. rewrite sources_mark in Hq. auto.
Qed.

Lemma extends_closed m m' : extends m m' -> closed m -> closed m'.
Proof.
  intros Hext Hc p q Hedge. apply (extends_is_Some m m' q Hext).
  apply (Hc p q). apply (extends_edge m m' p q Hext). assumption.
Qed.

Lemma extends_seen m m' q : extends m m' -> seen_in m q -> seen_in m' q.
Proof.
  intros Hext (n & Hn & Hs). destruct (Hext q) as [Heq|(n' & Hn' & Hs' & Hm)].
  - exists n. rewrite Heq. auto.
  - exists (mark n'). auto.
Qed.

Lemma extends_unseen m m' q : extends m m' -> unseen_in m' q -> unseen_in m q.
Proof.
  intros Hext (n & Hn & Hs). destruct (Hext q) as [Heq|(n' & Hn' & Hs' & Hm)].
  - exists n. rewrite <- Heq. auto.
  - rewrite Hm in Hn. injection Hn as <-. rewrite mark_seen in Hs. discriminate.
Qed.

Lemma extends_bound m m' k : extends m m' -> unseen_bound m k -> unseen_bound m' k.
Proof.
  intros Hext (u & Hlen & Hu). exists u. split; [assumption|].
  intros p Hp. apply Hu. eapply extends_unseen; eassumption.
Qed.

Lemma insert_bound m p n k :
  m !! p = Some n -> seen n = false -> unseen_bound m (S k) ->
  unseen_bound (<[p := mark n]> m) k.
Proof.
  intros Hp Hs (u & Hlen & Hu).
  assert (p ∈ u) as Hin by (apply Hu; exists n; auto).
  apply list_elem_of_split in Hin as (u1 & u2 & ->).
  exists (u1 ++ u2). split.
  - rewrite length_app in *. simpl in Hlen. lia.
  - intros q (n' & Hq & Hs'). destruct (decide (p = q)) as [<-|Hne].
    + rewrite lookup_insert_eq in Hq. injection Hq as <-.
      rewrite mark_seen in Hs'. discriminate.
    + rewrite lookup_insert_ne in Hq by assumption.
      assert (q ∈ u1 ++ p :: u2) as Hin by (apply Hu; exists n'; auto).
      rewrite elem_of_app, elem_of_cons in Hin. rewrite elem_of_app.
      destruct Hin as [?|[?|?]]; auto. congruence.
Qed.

Lemma size_bound (m : gmap ptr Node) : unseen_bound m (size m).
Proof.
  exists (map_to_list m).*1. split.
  - rewrite length_fmap, length_map_to_list. lia.
  - intros p (n & Hn & _). apply list_elem_of_fmap. exists (p, n).
    split; [reflexivity|]. apply elem_of_map_to_list. assumption.
Qed.

Lemma changed_split m1 m2 m3 q :
  extends m1 m2 -> changed m1 m3 q -> changed m1 m2 q \/ changed m2 m3 q.
Proof.
  intros H12 (n & Hn & Hs & Hm). destruct (H12 q) as [Heq|Hch]; [|auto].
  right. exists n. rewrite Heq. auto.
Qed.

Lemma changed_insert m p n q :
  m !! p = Some n -> changed m (<[p := mark n]> m) q -> q = p.
Proof.
  intros Hp (n' & Hq & Hs & Hm). destruct (decide (p = q)) as [|Hne]; [auto|].
  rewrite lookup_insert_ne in Hm by assumption.
  rewrite Hq in Hm. injection Hm as Hm. rewrite Hm in Hs.
  rewrite mark_seen in Hs. discriminate.
Qed.

Lemma extends_rtc m m' p q :
  extends m m' -> rtc (edge m') p q -> rtc (edge m) p q.
Proof.
  intros Hext. induction 1 as [|x y z Hxy _ IH]; [constructor|].
  econstructor; [|exact IH]. apply (extends_edge m m' x y Hext). assumption.
Qed.

Lemma dfs_searched (fuel : nat) :
  forall (node : option ptr) (m : gmap ptr Node),
    closed m ->
    (forall p, node = Some p -> is_Some (m !! p)) ->
    unseen_bound m (pred fuel) -> (0 < fuel)%nat ->
    exists m',
      dfs seen mark fuel node m = Ok m'
      /\ searched (option_list node) m m'
      /\ (forall q, changed m m' q -> forall p, node = Some p -> unseen_in m p).
Proof.
  induction fuel as [|fuel IH]; intros node m Hclosed Hvalid Hbound Hfuel; [lia|].
  destruct node as [p|]; simpl.
  2:{ exists m. split; [reflexivity|]. split.
      - split; [apply extends_refl|]. split; [intros c Hc; inversion Hc|].
        split; intros q; [intros q'|]; intros (n & Hn & Hs & Hm);
          rewrite Hn in Hm; injection Hm as Hm; rewrite Hm in Hs;
          rewrite mark_seen in Hs; discriminate.
      - intros q _ p [=]. }
  destruct (Hvalid p eq_refl) as [n Hn]. unfold deref. rewrite Hn. simpl.
  destruct (seen n) eqn:Hs.
  { exists m. split; [reflexivity|]. split.
    - split; [apply extends_refl|]. split.
      + intros c Hc. apply list_elem_of_singleton in Hc as ->. exists n. auto.
      + split; intros q; [intros q'|]; intros (n' & Hn' & Hs' & Hm);
          rewrite Hn' in Hm; injection Hm as Hm; rewrite Hm in Hs';
          rewrite mark_seen in Hs'; discriminate.
    - intros q (n' & Hn' & Hs' & Hm).
      rewrite Hn' in Hm; injection Hm as Hm; rewrite Hm in Hs';
        rewrite mark_seen in Hs'; discriminate. }
  simpl in Hbound.
  destruct fuel as [|fuel].
  { exfalso. destruct Hbound as (u & Hlen & Hu).
    assert (p ∈ u) as Hin by (apply Hu; exists n; auto).
    destruct u; [inversion Hin|simpl in Hlen; lia]. }
  set (m1 := <[p := mark n]> m).
  assert (extends m m1) as Hext1 by (apply extends_insert; assumption).
  assert (closed m1) as Hclosed1 by (eapply extends_closed; eassumption).
  assert (unseen_bound m1 fuel) as Hbound1 by (apply insert_bound; assumption).
  (* the loop over the inputs *)
  assert (forall (l : list Socket) (m2 : gmap ptr Node),
            extends m1 m2 ->
            (forall c, c ∈ link_sources l -> is_Some (m1 !! c)) ->
            exists m3,
              for_each (fun m input =>
                          match s_link input with
                          | Some l => dfs seen mark (S fuel) (l_fromnode l) m
                          | None => Ok m
                          end) l m2 = Ok m3
              /\ searched (link_sources l) m2 m3) as Hloop.
  { induction l as [|input l IHl]; intros m2 Hext2 Hsrc.
    - exists m2. split; [reflexivity|]. split; [apply extends_refl|].
      split; [intros c Hc; inversion Hc|].
      split; intros q; [intros q'|]; intros (n' & Hn' & Hs' & Hm);
        rewrite Hn' in Hm; injection Hm as Hm; rewrite Hm in Hs';
        rewrite mark_seen in Hs'; discriminate.
    - assert (link_sources (input :: l)
              = option_list (s_link input ≫= l_fromnode) ++ link_sources l)
        as Hsplit.
      { unfold link_sources. simpl.
        destruct (s_link input ≫= l_fromnode); reflexivity. }
      rewrite Hsplit. cbn [for_each].
      assert (exists m2',
                match s_link input with
                | Some l0 => dfs seen mark (S fuel) (l_fromnode l0) m2
                | None => Ok m2
                end = Ok m2'
                /\ searched (option_list (s_link input ≫= l_fromnode)) m2 m2')
        as (m2' & Hrun & Hsearched).
      { destruct (s_link input) as [l0|] eqn:Hlink.
        - destruct (IH (l_fromnode l0) m2) as (m2' & Hrun & Hsearched & _).
          + eapply extends_closed; eassumption.
          + intros c Hc. apply (extends_is_Some m1 m2 c Hext2). apply Hsrc.
            rewrite Hsplit, elem_of_app. left. simpl.
            rewrite Hc. left.
          + simpl. eapply extends_bound; eassumption.
          + lia.
          + exists m2'. simpl. auto.
        - exists m2. split; [reflexivity|]. simpl.
          split; [apply extends_refl|].
          split; [intros c Hc; inversion Hc|].
          split; intros q; [intros q'|]; intros (n' & Hn' & Hs' & Hm);
            rewrite Hn' in Hm; injection Hm as Hm; rewrite Hm in Hs';
            rewrite mark_seen in Hs'; discriminate. }
      rewrite Hrun. simpl.
      destruct Hsearched as (Hext & Hstart & Hclosure & Hsound).
      destruct (IHl m2') as (m3 & Hrun3 & Hext3 & Hstart3 & Hclosure3 & Hsound3).
      { eapply extends_trans; eassumption. }
      { intros c Hc. apply Hsrc. rewrite Hsplit, elem_of_app. auto. }
      exists m3. split; [assumption|].
      split; [eapply extends_trans; eassumption|].
      split; [|split].
      + intros c Hc. apply elem_of_app in Hc as [Hc|Hc].
        * eapply extends_seen; [eassumption|]. apply Hstart. assumption.
        * apply Hstart3. assumption.
      + intros q q' Hch Hedge.
        destruct (changed_split m2 m2' m3 q Hext Hch) as [Hch1|Hch2].
        * eapply extends_seen; [eassumption|].
          apply (Hclosure q q'); assumption.
        * apply (Hclosure3 q q'); [assumption|].
          apply (extends_edge m2 m2' q q' Hext). assumption.
      + intros q Hch.
        destruct (changed_split m2 m2' m3 q Hext Hch) as [Hch1|Hch2].
        * destruct (Hsound q Hch1) as (c & Hc & Hpath).
          exists c. rewrite elem_of_app. auto.
        * destruct (Hsound3 q Hch2) as (c & Hc & Hpath).
          exists c. rewrite elem_of_app. split; [auto|].
          eapply extends_rtc; eassumption. }
  destruct (Hloop (n_inputs n) m1) as (m' & Hrun & Hext & Hstart & Hclosure & Hsound).
  { apply extends_refl. }
  { intros c Hc. apply (Hclosed1 p c). exists (mark n). split.
    - apply lookup_insert_eq.
    - rewrite sources_mark. exact Hc. }
  exists m'. split; [exact Hrun|]. split; [|intros q _ p' [= <-]; exists n; auto].
  assert (extends m m') as Hext' by (eapply extends_trans; eassumption).
  split; [assumption|]. split; [|split].
  - intros c Hc. apply list_elem_of_singleton in Hc as ->.
    apply (extends_seen m1 m' p Hext). exists (mark n).
    split; [apply lookup_insert_eq|apply mark_seen].
  - intros q q' Hch Hedge.
    destruct (changed_split m m1 m' q Hext1 Hch) as [Hch1|Hch2].
    + apply changed_insert in Hch1 as ->; [|assumption].
      apply Hstart. destruct Hedge as (n' & Hn' & Hq').
      rewrite Hn in Hn'. injection Hn' as <-. exact Hq'.
    + apply (Hclosure q q'); [assumption|].
      apply (extends_edge m m1 q q' Hext1). assumption.
  - intros q Hch. exists p. split; [left|].
    destruct (changed_split m m1 m' q Hext1 Hch) as [Hch1|Hch2].
    + apply changed_insert in Hch1 as ->; [constructor|assumption].
    + destruct (Hsound q Hch2) as (c & Hc & Hpath).
      apply rtc_l with c.
      * exists n. auto.
      * apply (extends_rtc m m1 c q Hext1 Hpath).
Qed.

Lemma extends_size m m' : extends m m' -> size m' = size m.
Proof.
  intros Hext. rewrite <- !size_dom. f_equal. apply set_eq. intros q.
  rewrite !elem_of_dom. symmetry. apply extends_is_Some. assumption.
Qed.

Lemma extends_changed_or_same m m' q n :
  extends m m' -> m !! q = Some n ->
  m' !! q = Some n \/ (seen n = false /\ m' !! q = Some (mark n)).
Proof.
  intros Hext Hn. destruct (Hext q) as [Heq|(n' & Hn' & Hs & Hm)].
  - left. congruence.
  - right. rewrite Hn in Hn'. injection Hn' as <-. auto.
Qed.

Lemma extends_rtc_forward m m' p q :
  extends m m' -> rtc (edge m) p q -> rtc (edge m') p q.
Proof.
  intros Hext. induction 1 as [|x y z Hxy _ IH]; [constructor|].
  econstructor; [|exact IH]. apply (extends_edge m m' x y Hext). assumption.
Qed.

Lemma unseen_bound_le m k k' :
  (k <= k')%nat -> unseen_bound m k -> unseen_bound m k'.
Proof. intros Hle (u & Hlen & Hu). exists u. split; [lia|assumption]. Qed.

(** When no node that can be reached from the start is seen yet, the
    search marks all of them. *)
Lemma searched_complete m m' p :
  closed m -> (forall q, rtc (edge m) p q -> ~ seen_in m q) ->
  is_Some (m !! p) -> searched [p] m m' ->
  forall q, rtc (edge m) p q -> changed m m' q.
Proof.
  intros Hclosed Hnone Hvalid (Hext & Hstart & Hclosure & Hsound).
  assert (forall x, rtc (edge m) p x -> is_Some (m !! x) -> seen_in m' x ->
                    changed m m' x) as Hflip.
  { intros x Hx [n Hn] (n' & Hn' & Hs').
    destruct (extends_changed_or_same m m' x n Hext Hn) as [Hsame|[Hs Hm]].
    - exfalso. apply (Hnone x Hx). exists n. split; [assumption|]. congruence.
    - exists n. auto. }
  apply (rtc_ind_r (fun q => rtc (edge m) p q /\ changed m m' q)).
  - split; [constructor|]. apply Hflip; [constructor|assumption|].
    apply Hstart. left.
  - intros y z Hxy Hyz [Hpath IH].
    assert (rtc (edge m) p z) as Hz by (eapply rtc_r; eassumption).
    split; [assumption|].
    apply Hflip; [assumption|apply (Hclosed y z Hyz)|].
    apply (Hclosure y z); assumption.
Qed.

Lemma searched_sound m m' p q :
  searched [p] m m' -> changed m m' q -> rtc (edge m) p q.
Proof.
  intros (_ & _ & _ & Hsound) Hch. destruct (Hsound q Hch) as (c & Hc & Hpath).
  apply list_elem_of_singleton in Hc as ->. assumption.
Qed.

End Search.

(** ** The flag bit *)

Section Tagging.

Variable NODE_TEST : Z.
Hypothesis NODE_TEST_set : NODE_TEST <> 0.

Local Abbreviation tagged := (NodeLink.tagged NODE_TEST).
Local Abbreviation set_tag := (NodeLink.set_tag NODE_TEST).
Local Abbreviation clear_tag := (NodeLink.clear_tag NODE_TEST).
Local Abbreviation untagged := (fun n => negb (NodeLink.tagged NODE_TEST n)).

Lemma tagged_set_tag n : tagged (set_tag n) = true.
Proof.
  unfold NodeLink.tagged, NodeLink.set_tag. simpl.
  replace (Z.land (Z.lor (n_flag n) NODE_TEST) NODE_TEST) with NODE_TEST.
  - apply negb_true_iff, Z.eqb_neq. assumption.
  - apply Z.bits_inj'. intros i _. rewrite Z.land_spec, Z.lor_spec.
    destruct (Z.testbit (n_flag n) i), (Z.testbit NODE_TEST i); reflexivity.
Qed.

Lemma tagged_clear_tag n : tagged (clear_tag n) = false.
Proof.
  unfold NodeLink.tagged, NodeLink.clear_tag. simpl.
  replace (Z.land (Z.land (n_flag n) (Z.lnot NODE_TEST)) NODE_TEST) with 0;
    [reflexivity|].
  apply Z.bits_inj'. intros i Hi.
  rewrite !Z.land_spec, Z.lnot_spec, Z.bits_0 by assumption.
  destruct (Z.testbit (n_flag n) i), (Z.testbit NODE_TEST i); reflexivity.
Qed.

Lemma untagged_bits n i :
  tagged n = false -> Z.testbit (n_flag n) i && Z.testbit NODE_TEST i = false.
Proof.
  unfold NodeLink.tagged. intros H. apply negb_false_iff, Z.eqb_eq in H.
  rewrite <- Z.land_spec, H. apply Z.bits_0.
Qed.

Lemma clear_set_tag n : tagged n = false -> clear_tag (set_tag n) = n.
Proof.
  intros Hn. destruct n as [flag inputs id].
  unfold NodeLink.clear_tag, NodeLink.set_tag, with_flag. simpl. f_equal.
  apply Z.bits_inj'. intros i Hi.
  rewrite Z.land_spec, Z.lor_spec, Z.lnot_spec by assumption.
  pose proof (untagged_bits _ i Hn) as Hbit. simpl in Hbit.
  destruct (Z.testbit flag i), (Z.testbit NODE_TEST i); try reflexivity.
  discriminate.
Qed.

Lemma clear_tag_untagged n : tagged n = false -> clear_tag n = n.
Proof.
  intros Hn. destruct n as [flag inputs id].
  unfold NodeLink.clear_tag, with_flag. simpl. f_equal.
  apply Z.bits_inj'. intros i Hi.
  rewrite Z.land_spec, Z.lnot_spec by assumption.
  pose proof (untagged_bits _ i Hn) as Hbit. simpl in Hbit.
  destruct (Z.testbit flag i), (Z.testbit NODE_TEST i); try reflexivity.
  discriminate.
Qed.

Lemma tag_as_dfs fuel :
  forall node m,
    ui_node_tag_recursive NODE_TEST fuel node m = dfs tagged set_tag fuel node m.
Proof.
  induction fuel as [|fuel IH]; intros [p|] m; simpl; try reflexivity.
  destruct (deref m p) as [n|f|]; simpl; try reflexivity.
  destruct (NodeLink.tagged NODE_TEST n); [reflexivity|].
  apply for_each_ext. intros m' input. destruct (s_link input); auto.
Qed.

Lemma clear_as_dfs fuel :
  forall node m,
    ui_node_clear_recursive NODE_TEST fuel node m
    = dfs untagged clear_tag fuel node m.
Proof.
  induction fuel as [|fuel IH]; intros [p|] m; simpl; try reflexivity.
  destruct (deref m p) as [n|f|]; simpl; try reflexivity.
  destruct (NodeLink.tagged NODE_TEST n); [|reflexivity].
  apply for_each_ext. intros m' input. destruct (s_link input); auto.
Qed.

Lemma untagged_clear_tag n : untagged (clear_tag n) = true.
Proof. simpl. rewrite tagged_clear_tag. reflexivity. Qed.

Lemma set_tag_inputs n : n_inputs (set_tag n) = n_inputs n.
Proof. reflexivity. Qed.

Lemma clear_tag_inputs n : n_inputs (clear_tag n) = n_inputs n.
Proof. reflexivity. Qed.

(** Runs of the two recursions with the fuel for one visit of every
    node. *)
Lemma tag_run m node fuel :
  closed m -> (forall p, node = Some p -> is_Some (m !! p)) ->
  (size m < fuel)%nat ->
  exists m',
    ui_node_tag_recursive NODE_TEST fuel node m = Ok m'
    /\ NodeLink.searched tagged set_tag (option_list node) m m'.
Proof.
  intros Hclosed Hvalid Hfuel. rewrite tag_as_dfs.
  destruct (dfs_searched tagged set_tag tagged_set_tag set_tag_inputs
              fuel node m Hclosed Hvalid)
    as (m' & Hrun & Hsearched & _).
  - apply (unseen_bound_le tagged m (size m)); [lia|apply size_bound].
  - lia.
  - exists m'. auto.
Qed.

Lemma clear_run m node fuel :
  closed m -> (forall p, node = Some p -> is_Some (m !! p)) ->
  (size m < fuel)%nat ->
  exists m',
    ui_node_clear_recursive NODE_TEST fuel node m = Ok m'
    /\ NodeLink.searched untagged clear_tag (option_list node) m m'
    /\ (forall q, NodeLink.changed untagged clear_tag m m' q ->
                  forall p, node = Some p -> NodeLink.unseen_in untagged m p).
Proof.
  intros Hclosed Hvalid Hfuel. rewrite clear_as_dfs.
  destruct (dfs_searched untagged clear_tag untagged_clear_tag clear_tag_inputs
              fuel node m Hclosed Hvalid)
    as (m' & Hrun & Hsearched & Hstart).
  - apply (unseen_bound_le untagged m (size m)); [lia|apply size_bound].
  - lia.
  - exists m'. auto.
Qed.

Lemma tag_reach (m : gmap ptr Node) (p : ptr) :
  closed m -> is_Some (m !! p) ->
  (forall q n, m !! q = Some n -> NodeLink.tagged NODE_TEST n = false) ->
  exists m',
    ui_node_tag_recursive NODE_TEST (S (size m)) (Some p) m = Ok m'
    /\ NodeLink.extends tagged set_tag m m'
    /\ (forall q n, m !! q = Some n ->
          (rtc (edge m) p q /\ m' !! q = Some (NodeLink.set_tag NODE_TEST n))
          \/ (~ rtc (edge m) p q /\ m' !! q = Some n))
    /\ (forall q, m !! q = None -> m' !! q = None).
Proof.
  intros Hclosed Hvalid Hclean.
  destruct (tag_run m (Some p) (S (size m)) Hclosed) as (m' & Hrun & Hsearched).
  { intros p' [= <-]. assumption. }
  { lia. }
  exists m'. split; [assumption|].
  assert (forall q, rtc (edge m) p q -> ~ NodeLink.seen_in tagged m q) as Hnone.
  { intros q _ (n & Hn & Hs). rewrite (Hclean q n Hn) in Hs. discriminate. }
  pose proof (searched_complete tagged set_tag
                m m' p Hclosed Hnone Hvalid Hsearched) as Hreach.
  pose proof (searched_sound tagged set_tag m m' p) as Hsound.
  destruct Hsearched as (Hext & Hrest). split; [assumption|]. split.
  - intros q n Hn.
    destruct (extends_changed_or_same tagged set_tag m m' q n Hext Hn)
      as [Hsame|[Hs Hm]].
    + right. split; [|assumption]. intros Hq.
      apply Hreach in Hq as (n' & Hn' & _ & Hm).
      rewrite Hn in Hn'. injection Hn' as <-. rewrite Hsame in Hm.
      injection Hm as Hm. pose proof (tagged_set_tag n) as Ht.
      rewrite <- Hm, (Hclean q n Hn) in Ht. discriminate.
    + left. split; [|assumption]. apply (Hsound q); [split; assumption|].
      exists n. auto.
  - intros q Hq. destruct (Hext q) as [Heq|(n & Hn & _)]; congruence.
Qed.

(** X9.  [ui_node_tag_recursive] ends on every memory whose links lead to
    nodes, cyclic or not, and, started where no node is tagged, it sets
    [NODE_TEST] on exactly the nodes that can be reached from the start
    node over input links.  It changes nothing else: the other nodes,
    the other flag bits, the sockets and the data blocks stay as they
    are. *)
Theorem ui_node_tag_recursive_reach (m : gmap ptr Node) (p : ptr) :
  closed m -> is_Some (m !! p) ->
  (forall q n, m !! q = Some n -> NodeLink.tagged NODE_TEST n = false) ->
  exists m',
    ui_node_tag_recursive NODE_TEST (S (size m)) (Some p) m = Ok m'
    /\ (forall q n, m !! q = Some n ->
          (rtc (edge m) p q /\ m' !! q = Some (NodeLink.set_tag NODE_TEST n))
          \/ (~ rtc (edge m) p q /\ m' !! q = Some n))
    /\ (forall q, m !! q = None -> m' !! q = None).
Proof.
  intros Hclosed Hvalid Hclean.
  destruct (tag_reach m p Hclosed Hvalid Hclean) as (m' & Hrun & _ & Hrest).
  exists m'. auto.
Qed.

(** X10.  Tagging and clearing are inverse on a memory without tags:
    [ui_node_clear_recursive] from the same node takes the tags of
    [ui_node_tag_recursive] away again and gives the memory back as it
    was. *)
Theorem ui_node_clear_recursive_undoes_tag (m : gmap ptr Node) (p : ptr) :
  closed m -> is_Some (m !! p) ->
  (forall q n, m !! q = Some n -> NodeLink.tagged NODE_TEST n = false) ->
  exists m',
    ui_node_tag_recursive NODE_TEST (S (size m)) (Some p) m = Ok m'
    /\ ui_node_clear_recursive NODE_TEST (S (size m)) (Some p) m' = Ok m.
Proof.
  intros Hclosed Hvalid Hclean.
  destruct (tag_reach m p Hclosed Hvalid Hclean)
    as (m' & Hrun & Hext & Hreach & Hdom).
  exists m'. split; [assumption|].
  assert (closed m') as Hclosed'.
  { eapply (extends_closed tagged set_tag); eauto using set_tag_inputs. }
  assert (is_Some (m' !! p)) as Hvalid'.
  { apply (extends_is_Some tagged set_tag m m' p Hext). assumption. }
  assert (size m' = size m) as Hsize
    by (apply (extends_size tagged set_tag m m' Hext)).
  destruct (clear_run m' (Some p) (S (size m)) Hclosed')
    as (m'' & Hclear & Hsearched & _).
  { intros p' [= <-]. assumption. }
  { lia. }
  rewrite Hclear. f_equal. apply map_eq. intros q.
  destruct (m !! q) as [n|] eqn:Hn.
  - destruct (Hreach q n Hn) as [[Hq Hm']|[Hq Hm']].
    + assert (NodeLink.changed untagged clear_tag m' m'' q)
        as (n' & Hn' & _ & Hm'').
      { apply (searched_complete untagged clear_tag m' m'' p);
          try assumption.
        - intros x Hx (nx & Hnx & Hsx).
          apply (extends_rtc tagged set_tag set_tag_inputs m m' p x Hext) in Hx.
          destruct (m !! x) as [n0|] eqn:Hn0.
          + destruct (Hreach x n0 Hn0) as [[_ Hmx]|[Hnot _]]; [|contradiction].
            rewrite Hmx in Hnx. injection Hnx as <-. simpl in Hsx.
            rewrite tagged_set_tag in Hsx. discriminate.
          + rewrite (Hdom x Hn0) in Hnx. discriminate.
        - apply (extends_rtc_forward tagged set_tag set_tag_inputs m m' p q Hext).
          assumption. }
      rewrite Hm''. rewrite Hm' in Hn'. injection Hn' as <-.
      f_equal. apply clear_set_tag. eapply Hclean. eassumption.
    + destruct Hsearched as (Hext' & _).
      destruct (Hext' q) as [Heq|(n' & Hn' & Hs & _)].
      * rewrite Heq. assumption.
      * rewrite Hm' in Hn'. injection Hn' as <-.
        simpl in Hs. rewrite (Hclean q n Hn) in Hs. discriminate.
  - destruct Hsearched as (Hext' & _).
    destruct (Hext' q) as [Heq|(n' & Hn' & _)].
    + rewrite Heq. apply Hdom. assumption.
    + rewrite (Hdom q Hn) in Hn'. discriminate.
Qed.

End Tagging.

(** ** Removing linked nodes *)

Section Removal.

Variable NODE_TEST : Z.
Hypothesis NODE_TEST_set : NODE_TEST <> 0.

Local Abbreviation tagged := (NodeLink.tagged NODE_TEST).
Local Abbreviation set_tag := (NodeLink.set_tag NODE_TEST).
Local Abbreviation clear_tag := (NodeLink.clear_tag NODE_TEST).
Local Abbreviation untagged := (fun n => negb (NodeLink.tagged NODE_TEST n)).
Local Abbreviation cleared := (NodeLink.extends untagged clear_tag).
Local Abbreviation untagged_in := (NodeLink.seen_in untagged).
Local Abbreviation tagged_in := (NodeLink.unseen_in untagged).
Local Abbreviation untagging := (NodeLink.changed untagged clear_tag).

(** The first loop. *)
Lemma clear_tags_run (ntree : list ptr) :
  NoDup ntree ->
  forall m, (forall p, p ∈ ntree -> is_Some (m !! p)) ->
  exists m1,
    clear_tags NODE_TEST ntree m = Ok m1
    /\ forall q, m1 !! q = if decide (q ∈ ntree) then clear_tag <$> m !! q
                          else m !! q.
Proof.
  unfold clear_tags.
  induction 1 as [|p ntree Hp Hnd IH]; intros m Hvalid.
  - exists m. split; [reflexivity|]. intros q.
    rewrite decide_False by (inversion 1). reflexivity.
  - destruct (Hvalid p) as [n Hn]; [left|].
    cbn [for_each]. unfold deref. rewrite Hn. cbn [mbind outcome_bind].
    destruct (IH (<[p := clear_tag n]> m)) as (m1 & Hrun & Hm1).
    { intros q Hq. rewrite lookup_insert_is_Some. destruct (decide (p = q)); auto.
      right. split; [assumption|]. apply Hvalid. right. assumption. }
    exists m1. split; [exact Hrun|]. intros q. rewrite Hm1.
    destruct (decide (q = p)) as [->|Hne].
    + rewrite decide_False by assumption.
      rewrite decide_True by left. rewrite lookup_insert_eq, Hn. reflexivity.
    + rewrite lookup_insert_ne by auto.
      destruct (decide (q ∈ ntree)) as [Hq|Hq].
      * rewrite decide_True by (right; assumption). reflexivity.
      * rewrite decide_False; [reflexivity|].
        intros Hin. apply elem_of_cons in Hin as [?|?]; contradiction.
Qed.

Lemma clear_tags_fmap ntree m :
  well_formed ntree m ->
  clear_tags NODE_TEST ntree m = Ok (clear_tag <$> m).
Proof.
  intros (Hnd & Hall & _).
  destruct (clear_tags_run ntree Hnd m) as (m1 & Hrun & Hm1).
  { intros p Hp. apply Hall. assumption. }
  rewrite Hrun. f_equal. apply map_eq. intros q.
  rewrite Hm1, lookup_fmap. destruct (decide (q ∈ ntree)) as [Hq|Hq];
    [reflexivity|].
  destruct (m !! q) as [n|] eqn:Hn; [|reflexivity].
  exfalso. apply Hq, Hall. eauto.
Qed.

Lemma edge_fmap (f : Node -> Node) m p q :
  (forall n, n_inputs (f n) = n_inputs n) ->
  edge (f <$> m) p q <-> edge m p q.
Proof.
  intros Hf. unfold edge. rewrite lookup_fmap. split.
  - intros (n & Hn & Hq). destruct (m !! p) as [n0|]; [|discriminate].
    injection Hn as <-. exists n0. split; [reflexivity|].
    unfold sources in *. rewrite Hf in Hq. assumption.
  - intros (n & Hn & Hq). rewrite Hn. exists (f n). split; [reflexivity|].
    unfold sources in *. rewrite Hf. assumption.
Qed.

Lemma rtc_edge_fmap (f : Node -> Node) m p q :
  (forall n, n_inputs (f n) = n_inputs n) ->
  rtc (edge (f <$> m)) p q <-> rtc (edge m) p q.
Proof.
  intros Hf. split; induction 1 as [|x y z Hxy _ IH]; try constructor;
    (econstructor; [|exact IH]); apply (edge_fmap f m x y Hf); assumption.
Qed.

Lemma closed_fmap (f : Node -> Node) m :
  (forall n, n_inputs (f n) = n_inputs n) -> closed m -> closed (f <$> m).
Proof.
  intros Hf Hc p q Hedge. rewrite lookup_fmap, fmap_is_Some.
  apply (Hc p q), (edge_fmap f m p q Hf). assumption.
Qed.

(** The loop over the inputs of a node that is not tagged. *)
Lemma clear_inputs_run (fuel : nat) (rem : ptr) :
  forall (l : list Socket) (ma : gmap ptr Node),
    closed ma -> (forall c, c ∈ link_sources l -> is_Some (ma !! c)) ->
    (size ma < fuel)%nat ->
    exists mb,
      for_each (fun m sock =>
                  match s_link sock with
                  | Some l =>
                      if decide (l_fromnode l <> Some rem)
                      then ui_node_clear_recursive NODE_TEST fuel (l_fromnode l) m
                      else Ok m
                  | None => Ok m
                  end) l ma = Ok mb
      /\ cleared ma mb
      /\ (forall c, c ∈ link_sources l -> c <> rem -> untagged_in mb c)
      /\ (forall q q', untagging ma mb q -> edge ma q q' -> untagged_in mb q')
      /\ (forall q, untagging ma mb q ->
            exists c, c <> rem /\ tagged_in ma c /\ rtc (edge ma) c q).
Proof.
  pose proof (untagged_clear_tag NODE_TEST) as Hmark.
  pose proof (clear_tag_inputs NODE_TEST) as Hinputs.
  assert (forall m q, ~ untagging m m q) as Hsame.
  { intros m q (n & Hn & Hs & Hm). rewrite Hn in Hm. injection Hm as Hm.
    rewrite Hm in Hs. simpl in Hs. rewrite tagged_clear_tag in Hs.
    discriminate. }
  induction l as [|sock l IH]; intros ma Hclosed Hvalid Hfuel.
  - exists ma. split; [reflexivity|].
    split; [apply (extends_refl untagged clear_tag)|].
    split; [intros c Hc; inversion Hc|].
    split; [intros q q' Hch|intros q Hch]; destruct (Hsame ma q Hch).
  - assert (link_sources (sock :: l)
            = option_list (s_link sock ≫= l_fromnode) ++ link_sources l)
      as Hsplit.
    { unfold link_sources. simpl.
      destruct (s_link sock ≫= l_fromnode); reflexivity. }
    cbn [for_each].
    assert (exists m1,
              match s_link sock with
              | Some l0 =>
                  if decide (l_fromnode l0 <> Some rem)
                  then ui_node_clear_recursive NODE_TEST fuel (l_fromnode l0) ma
                  else Ok ma
              | None => Ok ma
              end = Ok m1
              /\ cleared ma m1
              /\ (forall c, c ∈ option_list (s_link sock ≫= l_fromnode) ->
                            c <> rem -> untagged_in m1 c)
              /\ (forall q q', untagging ma m1 q -> edge ma q q' ->
                               untagged_in m1 q')
              /\ (forall q, untagging ma m1 q ->
                    exists c, c <> rem /\ tagged_in ma c /\ rtc (edge ma) c q))
      as (m1 & Hrun1 & Hext1 & Hstart1 & Hclosure1 & Hsound1).
    { assert (exists m1, Ok ma = Ok m1
                /\ cleared ma m1
                /\ (forall q q', untagging ma m1 q -> edge ma q q' ->
                                 untagged_in m1 q')
                /\ (forall q, untagging ma m1 q ->
                      exists c, c <> rem /\ tagged_in ma c /\ rtc (edge ma) c q))
        as Hskip.
      { exists ma. split; [reflexivity|].
        split; [apply (extends_refl untagged clear_tag)|].
        split; [intros q q' Hch|intros q Hch]; destruct (Hsame ma q Hch). }
      destruct (s_link sock) as [l0|] eqn:Hlink.
      - destruct (decide (l_fromnode l0 <> Some rem)) as [Hne|Heq].
        + destruct (clear_run NODE_TEST ma (l_fromnode l0) fuel Hclosed)
            as (m1 & Hrun & (Hext & Hstart & Hclosure & Hsound) & Hunseen).
          { intros c Hc. apply Hvalid. rewrite Hsplit, elem_of_app. left.
            simpl. rewrite Hc. left. }
          { assumption. }
          exists m1. split; [assumption|]. split; [assumption|].
          split; [intros c Hc _; apply Hstart; assumption|].
          split; [assumption|].
          intros q Hch. destruct (Hsound q Hch) as (c & Hc & Hpath).
          exists c. split; [|split; [|assumption]].
          * intros ->. apply Hne. simpl in Hc.
            destruct (l_fromnode l0); [|inversion Hc].
            apply list_elem_of_singleton in Hc. congruence.
          * apply (Hunseen q Hch). simpl in Hc.
            destruct (l_fromnode l0); [|inversion Hc].
            apply list_elem_of_singleton in Hc. congruence.
        + destruct Hskip as (m1 & Hrun & Hext & Hclosure & Hsound).
          exists m1. split; [assumption|]. split; [assumption|].
          split; [|auto]. intros c Hc Hrem. exfalso.
          apply dec_stable in Heq. simpl in Hc. rewrite Heq in Hc.
          apply list_elem_of_singleton in Hc. contradiction.
      - destruct Hskip as (m1 & Hrun & Hext & Hclosure & Hsound).
        exists m1. split; [assumption|]. split; [assumption|].
        split; [|auto]. intros c Hc. inversion Hc. }
    rewrite Hrun1. cbn [mbind outcome_bind].
    destruct (IH m1) as (mb & Hrun & Hext & Hstart & Hclosure & Hsound).
    { apply (extends_closed untagged clear_tag Hinputs ma m1 Hext1 Hclosed). }
    { intros c Hc. apply (extends_is_Some untagged clear_tag ma m1 c Hext1).
      apply Hvalid. rewrite Hsplit, elem_of_app. auto. }
    { rewrite (extends_size untagged clear_tag ma m1 Hext1). assumption. }
    exists mb. split; [assumption|].
    split; [apply (extends_trans untagged clear_tag Hmark ma m1 mb Hext1 Hext)|].
    rewrite Hsplit. split; [|split].
    + intros c Hc Hrem. apply elem_of_app in Hc as [Hc|Hc].
      * apply (extends_seen untagged clear_tag Hmark m1 mb c Hext). auto.
      * auto.
    + intros q q' Hch Hedge.
      destruct (changed_split untagged clear_tag ma m1 mb q Hext1 Hch)
        as [Hch1|Hch2].
      * apply (extends_seen untagged clear_tag Hmark m1 mb q' Hext).
        apply (Hclosure1 q q'); assumption.
      * apply (Hclosure q q'); [assumption|].
        apply (extends_edge untagged clear_tag Hinputs ma m1 q q' Hext1).
        assumption.
    + intros q Hch.
      destruct (changed_split untagged clear_tag ma m1 mb q Hext1 Hch)
        as [Hch1|Hch2]; [auto|].
      destruct (Hsound q Hch2) as (c & Hrem & Htag & Hpath).
      exists c. split; [assumption|]. split.
      * apply (extends_unseen untagged clear_tag Hmark ma m1 c Hext1).
        assumption.
      * apply (extends_rtc untagged clear_tag Hinputs ma m1 c q Hext1).
        assumption.
Qed.

Local Abbreviation is_tagged := (NodeLink.is_tagged NODE_TEST).

Lemma is_tagged_true m q : is_tagged m q = true <-> tagged_in m q.
Proof.
  unfold NodeLink.is_tagged, NodeLink.unseen_in. split.
  - destruct (m !! q) as [n|]; [|discriminate]. intros Ht. exists n.
    rewrite Ht. auto.
  - intros (n & -> & Hs). apply negb_false_iff in Hs. assumption.
Qed.

Lemma is_tagged_false m q :
  is_Some (m !! q) -> is_tagged m q = false <-> untagged_in m q.
Proof.
  unfold NodeLink.is_tagged, NodeLink.seen_in. intros [n Hn]. rewrite Hn. split.
  - intros Ht. exists n. rewrite Ht. auto.
  - intros (n' & [= <-] & Hs). apply negb_true_iff in Hs. assumption.
Qed.

(** The second loop. *)
Lemma clear_used_run (fuel : nat) (rem : ptr) (m2 : gmap ptr Node) :
  closed m2 -> (size m2 < fuel)%nat ->
  forall (todo done : list ptr) (mk : gmap ptr Node),
    (forall v, v ∈ todo -> is_Some (m2 !! v)) ->
    cleared m2 mk ->
    (forall q q', untagging m2 mk q -> edge m2 q q' -> untagged_in mk q') ->
    (forall u q', u ∈ done -> untagged_in mk u -> edge m2 u q' -> q' <> rem ->
                  untagged_in mk q') ->
    (forall q, untagging m2 mk q ->
       exists c, c <> rem /\ tagged_in m2 c /\ rtc (edge m2) c q) ->
    exists m3,
      clear_used NODE_TEST fuel todo rem mk = Ok m3
      /\ cleared m2 m3
      /\ (forall q q', untagging m2 m3 q -> edge m2 q q' -> untagged_in m3 q')
      /\ (forall u q', u ∈ done ++ todo -> untagged_in m3 u -> edge m2 u q' ->
                       q' <> rem -> untagged_in m3 q')
      /\ (forall q, untagging m2 m3 q ->
            exists c, c <> rem /\ tagged_in m2 c /\ rtc (edge m2) c q).
Proof.
  pose proof (untagged_clear_tag NODE_TEST) as Hmark.
  pose proof (clear_tag_inputs NODE_TEST) as Hinputs.
  intros Hclosed Hfuel. unfold clear_used.
  induction todo as [|v todo IH];
    intros done mk Hvalid Hext Hclosure Hdone Hsound.
  - exists mk. rewrite app_nil_r. split; [reflexivity|]. auto.
  - destruct (Hvalid v) as [n2 Hn2]; [left|].
    assert (is_Some (mk !! v)) as [n Hn].
    { apply (extends_is_Some untagged clear_tag m2 mk v Hext). eauto. }
    cbn [for_each]. unfold deref. rewrite Hn. cbn [mbind outcome_bind].
    assert (closed mk) as Hclosedk
      by (apply (extends_closed untagged clear_tag Hinputs m2 mk Hext Hclosed)).
    assert (exists mb,
              (if negb (NodeLink.tagged NODE_TEST n)
               then
                 for_each (fun m sock =>
                   match s_link sock with
                   | Some l =>
                       if decide (l_fromnode l <> Some rem)
                       then ui_node_clear_recursive NODE_TEST fuel (l_fromnode l) m
                       else Ok m
                   | None => Ok m
                   end) (n_inputs n) mk
               else Ok mk) = Ok mb
              /\ cleared mk mb
              /\ (untagged_in mk v ->
                  forall c, edge mk v c -> c <> rem -> untagged_in mb c)
              /\ (forall q q', untagging mk mb q -> edge mk q q' ->
                               untagged_in mb q')
              /\ (forall q, untagging mk mb q ->
                    exists c, c <> rem /\ tagged_in mk c /\ rtc (edge mk) c q))
      as (mb & Hrun & Hextb & Hv & Hclosureb & Hsoundb).
    { destruct (NodeLink.tagged NODE_TEST n) eqn:Ht; simpl.
      - exists mk. split; [reflexivity|].
        split; [apply (extends_refl untagged clear_tag)|].
        split.
        { intros (n' & Hn' & Hs). rewrite Hn in Hn'. injection Hn' as <-.
          rewrite Ht in Hs. discriminate. }
        split; [intros q q' Hch|intros q Hch];
          destruct Hch as (n' & Hn' & Hs & Hm); rewrite Hn' in Hm;
          injection Hm as Hm; rewrite Hm in Hs; simpl in Hs;
          rewrite tagged_clear_tag in Hs; discriminate.
      - destruct (clear_inputs_run fuel rem (n_inputs n) mk Hclosedk)
          as (mb & Hrun & Hextb & Hstart & Hclosureb & Hsoundb).
        { intros c Hc. apply (Hclosedk v c). exists n. auto. }
        { rewrite (extends_size untagged clear_tag m2 mk Hext). assumption. }
        exists mb. split; [assumption|]. split; [assumption|].
        split; [|auto]. intros _ c (n' & Hn' & Hc) Hrem.
        rewrite Hn in Hn'. injection Hn' as <-. apply Hstart; assumption. }
    rewrite Hrun.
    assert (cleared m2 mb) as Hext2
      by (apply (extends_trans untagged clear_tag Hmark m2 mk mb Hext Hextb)).
    destruct (IH (done ++ [v]) mb) as (m3 & Hrun3 & Hrest).
    + intros x Hx. apply Hvalid. right. assumption.
    + assumption.
    + intros q q' Hch Hedge.
      destruct (changed_split untagged clear_tag m2 mk mb q Hext Hch)
        as [Hch1|Hch2].
      * apply (extends_seen untagged clear_tag Hmark mk mb q' Hextb).
        apply (Hclosure q q'); assumption.
      * apply (Hclosureb q q'); [assumption|].
        apply (extends_edge untagged clear_tag Hinputs m2 mk q q' Hext).
        assumption.
    + intros u q' Hu (nu & Hnu & Hsu) Hedge Hrem.
      assert (edge mk u q') as Hedgek
        by (apply (extends_edge untagged clear_tag Hinputs m2 mk u q' Hext);
            assumption).
      destruct (Hextb u) as [Heq|Hch].
      * assert (untagged_in mk u) as Huk.
        { exists nu. rewrite <- Heq. auto. }
        apply elem_of_app in Hu as [Hu|Hu].
        -- apply (extends_seen untagged clear_tag Hmark mk mb q' Hextb).
           apply (Hdone u q'); assumption.
        -- apply list_elem_of_singleton in Hu as ->. apply Hv; assumption.
      * apply (Hclosureb u q'); assumption.
    + intros q Hch.
      destruct (changed_split untagged clear_tag m2 mk mb q Hext Hch)
        as [Hch1|Hch2]; [auto|].
      destruct (Hsoundb q Hch2) as (c & Hrem & Htag & Hpath).
      exists c. split; [assumption|]. split.
      * apply (extends_unseen untagged clear_tag Hmark m2 mk c Hext).
        assumption.
      * apply (extends_rtc untagged clear_tag Hinputs m2 mk c q Hext).
        assumption.
    + exists m3. split; [exact Hrun3|].
      rewrite <- app_assoc in Hrest. exact Hrest.
Qed.

Lemma remove_step_node m ids freed p n :
  m !! p = Some n ->
  remove_step NODE_TEST m (ids, freed) p
  = if NodeLink.tagged NODE_TEST n
    then ids ← match n_id n with
               | Some i =>
                   match ids !! i with
                   | Some us => Ok (<[i := Int.sub us 1]> ids)
                   | None => Abort InvalidPointer
                   end
               | None => Ok ids
               end;
         Ok (ids, freed ++ [p])
    else Ok (ids, freed).
Proof. intros Hn. unfold remove_step, deref. rewrite Hn. reflexivity. Qed.

(** The third loop. *)
Lemma remove_tagged_run (m : gmap ptr Node) :
  forall (ntree : list ptr) (ids : gmap ptr Z) (freed : list ptr),
    (forall p, p ∈ ntree -> is_Some (m !! p)) ->
    (forall p n i, m !! p = Some n -> n_id n = Some i -> is_Some (ids !! i)) ->
    exists ids',
      for_each (remove_step NODE_TEST m) ntree (ids, freed)
      = Ok (ids', freed ++ filter (fun q => is_tagged m q = true) ntree)
      /\ forall i,
           ids' !! i
           = Nat.iter (tagged_users NODE_TEST m ntree i)
               (fun us => Int.sub us 1) <$> ids !! i.
Proof.
  induction ntree as [|p ntree IH]; intros ids freed Hvalid Hids.
  - exists ids. simpl. rewrite app_nil_r. split; [reflexivity|].
    intros i. unfold tagged_users. simpl. destruct (ids !! i); reflexivity.
  - destruct (Hvalid p) as [n Hn]; [left|].
    assert (forall q, q ∈ ntree -> is_Some (m !! q)) as Hvalid'
      by (intros q Hq; apply Hvalid; right; assumption).
    cbn [for_each]. rewrite (remove_step_node m ids freed p n Hn).
    destruct (NodeLink.tagged NODE_TEST n) eqn:Ht.
    + assert (is_tagged m p = true) as Hp
        by (unfold NodeLink.is_tagged; rewrite Hn; assumption).
      rewrite filter_cons_True by assumption.
      replace (freed ++ p :: filter (fun q => is_tagged m q = true) ntree)
        with ((freed ++ [p]) ++ filter (fun q => is_tagged m q = true) ntree)
        by (rewrite <- app_assoc; reflexivity).
      destruct (n_id n) as [i0|] eqn:Hid.
      * destruct (Hids p n i0 Hn Hid) as [us Hus]. rewrite Hus.
        cbn [mbind outcome_bind].
        destruct (IH (<[i0 := Int.sub us 1]> ids) (freed ++ [p]) Hvalid')
          as (ids' & Hrun & Hcount).
        { intros q nq i Hq Hi. rewrite lookup_insert_is_Some.
          destruct (decide (i0 = i)); [auto|]. right. split; [assumption|].
          eapply Hids; eassumption. }
        exists ids'. split; [exact Hrun|]. intros i. rewrite Hcount.
        unfold tagged_users. destruct (decide (i0 = i)) as [<-|Hne].
        -- rewrite lookup_insert_eq, Hus.
           rewrite filter_cons_True by (rewrite Hn; auto).
           cbn [length]. unfold fmap, option_fmap, option_map.
           rewrite Nat.iter_succ_r. reflexivity.
        -- rewrite lookup_insert_ne by assumption.
           rewrite (filter_cons_False _ p); [reflexivity|].
           rewrite Hn. simpl. rewrite Hid. intros [_ [= ?]]. contradiction.
      * cbn [mbind outcome_bind].
        destruct (IH ids (freed ++ [p]) Hvalid' Hids) as (ids' & Hrun & Hcount).
        exists ids'. split; [exact Hrun|]. intros i. rewrite Hcount.
        unfold tagged_users. rewrite (filter_cons_False _ p); [reflexivity|].
        rewrite Hn. simpl. rewrite Hid. intros [_ [=]].
    + assert (is_tagged m p <> true) as Hp
        by (unfold NodeLink.is_tagged; rewrite Hn, Ht; discriminate).
      rewrite filter_cons_False by assumption.
      destruct (IH ids freed Hvalid' Hids) as (ids' & Hrun & Hcount).
      exists ids'. split; [exact Hrun|]. intros i. rewrite Hcount.
      unfold tagged_users. rewrite (filter_cons_False _ p); [reflexivity|].
      intros [Htag _]. contradiction.
Qed.

(** What a call of [ui_node_remove_linked] amounts to. *)
Lemma remove_linked_run (ntree : list ptr) (rem : ptr) (w : World) :
  well_formed ntree (w_nodes w) -> is_Some (w_nodes w !! rem) -> ids_valid w ->
  exists (m3 : gmap ptr Node) (ids' : gmap ptr Z),
    ui_node_remove_linked NODE_TEST ntree (Some rem) w
    = Ok ({| w_nodes := m3; w_id_us := ids' |},
          filter (fun q => is_tagged m3 q = true) ntree)
    /\ (forall q n, w_nodes w !! q = Some n ->
          (is_tagged m3 q = false /\ m3 !! q = Some (clear_tag n))
          \/ (is_tagged m3 q = true /\ m3 !! q = Some (set_tag (clear_tag n))
              /\ rtc (edge (w_nodes w)) rem q))
    /\ (forall q, w_nodes w !! q = None -> m3 !! q = None)
    /\ (forall u q', is_tagged m3 u = false -> edge (w_nodes w) u q' ->
                     q' <> rem -> is_tagged m3 q' = false)
    /\ (is_tagged m3 rem = true \/ tc (edge (w_nodes w)) rem rem)
    /\ (forall i,
          ids' !! i
          = Nat.iter (tagged_users NODE_TEST m3 ntree i)
              (fun us => Int.sub us 1) <$> w_id_us w !! i).
Proof.
  pose proof (untagged_clear_tag NODE_TEST) as Hmark.
  pose proof (clear_tag_inputs NODE_TEST) as Hinputs.
  pose proof (set_tag_inputs NODE_TEST) as Hinputs_set.
  pose proof (tagged_set_tag NODE_TEST NODE_TEST_set) as Hmark_set.
  destruct w as [m ids]. unfold ids_valid. cbn [w_nodes w_id_us].
  intros Hwf Hrem Hids.
  pose proof Hwf as (Hnd & Hall & Hclosed).
  unfold ui_node_remove_linked. cbn [w_nodes w_id_us].
  rewrite (clear_tags_fmap ntree m Hwf). cbn [mbind outcome_bind].
  set (m1 := clear_tag <$> m).
  assert (closed m1) as Hclosed1 by (apply closed_fmap; assumption).
  assert (size m1 = size m) as Hsize1 by apply map_size_fmap.
  assert (forall x y, rtc (edge m1) x y <-> rtc (edge m) x y) as Hpaths1
    by (intros x y; apply rtc_edge_fmap; assumption).
  assert (forall x y, edge m1 x y <-> edge m x y) as Hedges1
    by (intros x y; apply edge_fmap; assumption).
  assert (forall q n, m1 !! q = Some n -> NodeLink.tagged NODE_TEST n = false)
    as Hclean1.
  { intros q n. unfold m1. rewrite lookup_fmap.
    destruct (m !! q); [|discriminate]. intros [= <-].
    apply tagged_clear_tag. }
  destruct (tag_reach NODE_TEST NODE_TEST_set m1 rem Hclosed1)
    as (m2 & Hrun2 & Hext2 & Hreach2 & Hdom2).
  { unfold m1. rewrite lookup_fmap, fmap_is_Some. assumption. }
  { assumption. }
  rewrite Hsize1 in Hrun2. rewrite Hrun2. cbn [mbind outcome_bind].
  assert (closed m2) as Hclosed2
    by (apply (extends_closed tagged set_tag Hinputs_set m1 m2 Hext2 Hclosed1)).
  assert (size m2 = size m) as Hsize2.
  { rewrite (extends_size tagged set_tag m1 m2 Hext2). assumption. }
  assert (forall x y, edge m2 x y <-> edge m x y) as Hedges2.
  { intros x y. rewrite <- Hedges1. symmetry.
    apply (extends_edge tagged set_tag Hinputs_set m1 m2 x y Hext2). }
  assert (forall x y, rtc (edge m2) x y -> rtc (edge m) x y) as Hpaths2.
  { intros x y Hxy. apply Hpaths1.
    apply (extends_rtc tagged set_tag Hinputs_set m1 m2 x y Hext2 Hxy). }
  assert (forall q, is_Some (m2 !! q) <-> is_Some (m !! q)) as Hdom.
  { intros q. rewrite <- (extends_is_Some tagged set_tag m1 m2 q Hext2).
    unfold m1. rewrite lookup_fmap, fmap_is_Some. reflexivity. }
  assert (forall c, tagged_in m2 c -> rtc (edge m) rem c) as Htagged2.
  { intros c (n2 & Hn2 & Hs). apply negb_false_iff in Hs.
    destruct (m1 !! c) as [n1|] eqn:Hn1.
    - destruct (Hreach2 c n1 Hn1) as [[Hpath _]|[_ Hsame]].
      + apply Hpaths1. assumption.
      + rewrite Hsame in Hn2. injection Hn2 as <-.
        rewrite (Hclean1 c n1 Hn1) in Hs. discriminate.
    - rewrite (Hdom2 c Hn1) in Hn2. discriminate. }
  destruct (clear_used_run (S (size m)) rem m2 Hclosed2 ltac:(lia) ntree [] m2)
    as (m3 & Hrun3 & Hext3 & Hclosure3 & Hdone3 & Hsound3).
  { intros v Hv. apply Hdom, Hall. assumption. }
  { apply (extends_refl untagged clear_tag). }
  { intros q q' (n & Hn & Hs & Hm). rewrite Hn in Hm. injection Hm as Hm.
    rewrite Hm in Hs. simpl in Hs. rewrite tagged_clear_tag in Hs.
    discriminate. }
  { intros u q' Hu. inversion Hu. }
  { intros q (n & Hn & Hs & Hm). rewrite Hn in Hm. injection Hm as Hm.
    rewrite Hm in Hs. simpl in Hs. rewrite tagged_clear_tag in Hs.
    discriminate. }
  rewrite Hrun3. cbn [mbind outcome_bind].
  assert (forall q, is_Some (m3 !! q) <-> is_Some (m !! q)) as Hdom3.
  { intros q. rewrite <- (extends_is_Some untagged clear_tag m2 m3 q Hext3).
    apply Hdom. }
  destruct (remove_tagged_run m3 ntree ids []) as (ids' & Hrun4 & Hcount).
  { intros p Hp. apply Hdom3, Hall. assumption. }
  { intros p n3 i Hn3 Hi.
    assert (exists n, m !! p = Some n /\ n_id n = Some i) as (n & Hn & Hid).
    { destruct (m !! p) as [n|] eqn:Hn.
      - exists n. split; [reflexivity|].
        assert (m1 !! p = Some (clear_tag n)) as Hn1
          by (unfold m1; rewrite lookup_fmap, Hn; reflexivity).
        assert (exists n2, m2 !! p = Some n2 /\ n_id n2 = n_id n) as (n2 & Hn2 & Hid2).
        { destruct (Hreach2 p _ Hn1) as [[_ H]|[_ H]]; eexists; split; eauto. }
        destruct (extends_changed_or_same untagged clear_tag m2 m3 p n2 Hext3 Hn2)
          as [Hsame|[_ Hch]].
        + rewrite Hsame in Hn3. injection Hn3 as <-. congruence.
        + rewrite Hch in Hn3. injection Hn3 as <-. simpl in Hi. congruence.
      - exfalso. assert (is_Some (m !! p)) as [? ?] by (apply Hdom3; eauto).
        congruence. }
    apply (Hids p n i Hn Hid). }
  unfold remove_tagged. rewrite Hrun4. cbn [mbind outcome_bind]. simpl.
  exists m3, ids'. split; [reflexivity|].
  (* the memory after the second loop, node by node *)
  assert (forall q n, m !! q = Some n ->
            (is_tagged m3 q = false /\ m3 !! q = Some (clear_tag n))
            \/ (is_tagged m3 q = true /\ m3 !! q = Some (set_tag (clear_tag n))
                /\ rtc (edge m) rem q)) as Hnodes.
  { intros q n Hn.
    assert (m1 !! q = Some (clear_tag n)) as Hn1
      by (unfold m1; rewrite lookup_fmap, Hn; reflexivity).
    assert (NodeLink.tagged NODE_TEST (clear_tag n) = false) as Hc
      by apply tagged_clear_tag.
    destruct (Hreach2 q _ Hn1) as [[Hpath Hn2]|[_ Hn2]].
    - destruct (extends_changed_or_same untagged clear_tag m2 m3 q _ Hext3 Hn2)
        as [Hsame|[_ Hch]].
      + right. unfold NodeLink.is_tagged. rewrite Hsame.
        split; [apply Hmark_set|]. split; [reflexivity|].
        apply Hpaths1. assumption.
      + left. rewrite (clear_set_tag NODE_TEST _ Hc) in Hch.
        unfold NodeLink.is_tagged. rewrite Hch. auto.
    - destruct (extends_changed_or_same untagged clear_tag m2 m3 q _ Hext3 Hn2)
        as [Hsame|[Hs _]].
      + left. unfold NodeLink.is_tagged. rewrite Hsame. auto.
      + simpl in Hs. rewrite Hc in Hs. discriminate. }
  split; [exact Hnodes|].
  split.
  { intros q Hq. destruct (m3 !! q) eqn:Hq3; [|reflexivity].
    assert (is_Some (m !! q)) as [? ?] by (apply Hdom3; eauto). congruence. }
  split.
  { intros u q' Hu Hedge Hne.
    assert (is_Some (m3 !! u)) as Hu3.
    { apply Hdom3. destruct Hedge as (n & Hn & _). eauto. }
    assert (is_Some (m3 !! q')) as Hq3.
    { apply Hdom3. apply (Hclosed u q'). assumption. }
    apply is_tagged_false; [assumption|].
    apply (Hdone3 u q'); try assumption.
    - simpl. apply Hall, Hdom3. assumption.
    - apply is_tagged_false; assumption.
    - apply Hedges2. assumption. }
  split; [|exact Hcount].
  destruct (is_tagged m3 rem) eqn:Ht; [left; reflexivity|right].
  assert (tagged_in m2 rem) as (n2 & Hn2 & Hs2).
  { destruct Hrem as [n Hn].
    assert (m1 !! rem = Some (clear_tag n)) as Hn1
      by (unfold m1; rewrite lookup_fmap, Hn; reflexivity).
    destruct (Hreach2 rem _ Hn1) as [[_ Hn2]|[Hnot _]].
    - eexists. split; [eassumption|]. simpl. rewrite Hmark_set. reflexivity.
    - exfalso. apply Hnot. constructor. }
  assert (untagging m2 m3 rem) as Hch.
  { destruct (extends_changed_or_same untagged clear_tag m2 m3 rem n2 Hext3 Hn2)
      as [Hsame|[_ Hch]].
    - exfalso. unfold NodeLink.is_tagged in Ht. rewrite Hsame in Ht.
      apply negb_false_iff in Hs2. congruence.
    - exists n2. auto. }
  destruct (Hsound3 rem Hch) as (c & Hne & Htag & Hpath).
  apply Htagged2 in Htag. apply Hpaths2 in Hpath.
  apply rtc_tc in Htag as [Heq|Htc]; [congruence|].
  eapply tc_rtc_r; eassumption.
Qed.

Lemma int_wrap_sub_one z : Int.sub (Int.wrap z) 1 = Int.wrap (z - 1).
Proof.
  unfold Int.sub, Int.wrap. f_equal.
  replace ((z + 2 ^ 31) mod 2 ^ 32 - 2 ^ 31 - 1 + 2 ^ 31)
    with ((z + 2 ^ 31) mod 2 ^ 32 - 1) by lia.
  rewrite Zminus_mod_idemp_l. f_equal. lia.
Qed.

Lemma int_wrap_small z : - 2 ^ 31 <= z < 2 ^ 31 -> Int.wrap z = z.
Proof. intros H. unfold Int.wrap. rewrite Z.mod_small; lia. Qed.

Lemma iter_int_sub (k : nat) z :
  Nat.iter k (fun us => Int.sub us 1) (Int.wrap z) = Int.wrap (z - Z.of_nat k).
Proof.
  induction k as [|k IH].
  - simpl. f_equal. lia.
  - cbn [Nat.iter nat_rect]. fold (Nat.iter k (fun us => Int.sub us 1) (Int.wrap z)).
    rewrite IH, int_wrap_sub_one. f_equal. lia.
Qed.

(** X11.  [ui_node_remove_linked] frees only nodes that feed the node to
    remove, directly or through other nodes, each of them once and in
    the order of the tree. *)
Theorem ui_node_remove_linked_only_upstream
    (ntree : list ptr) (rem : ptr) (w : World) :
  well_formed ntree (w_nodes w) -> is_Some (w_nodes w !! rem) -> ids_valid w ->
  exists (w' : World) (freed : list ptr),
    ui_node_remove_linked NODE_TEST ntree (Some rem) w = Ok (w', freed)
    /\ (forall q, q ∈ freed -> rtc (edge (w_nodes w)) rem q)
    /\ NoDup freed
    /\ freed `sublist_of` ntree.
Proof.
  intros Hwf Hrem Hids.
  destruct (remove_linked_run ntree rem w Hwf Hrem Hids)
    as (m3 & ids' & Hrun & Hnodes & Hdom & _).
  eexists _, _. split; [exact Hrun|]. split; [|split].
  - intros q Hq. apply list_elem_of_filter in Hq as [Ht Hq].
    destruct Hwf as (_ & Hall & _). apply Hall in Hq as [n Hn].
    destruct (Hnodes q n Hn) as [[Hf _]|(_ & _ & Hpath)]; [congruence|].
    assumption.
  - apply NoDup_filter. destruct Hwf as (Hnd & _). assumption.
  - apply sublist_filter.
Qed.

(** X12.  [ui_node_remove_linked] frees no node that a remaining node
    still uses: when a node of the tree is not freed, none of the nodes
    that its inputs are linked from is freed, the node to remove
    excepted. *)
Theorem ui_node_remove_linked_keeps_used
    (ntree : list ptr) (rem : ptr) (w : World) :
  well_formed ntree (w_nodes w) -> is_Some (w_nodes w !! rem) -> ids_valid w ->
  exists (w' : World) (freed : list ptr),
    ui_node_remove_linked NODE_TEST ntree (Some rem) w = Ok (w', freed)
    /\ forall u q, u ∈ ntree -> u ∉ freed -> edge (w_nodes w) u q -> q <> rem ->
                   q ∉ freed.
Proof.
  intros Hwf Hrem Hids.
  destruct (remove_linked_run ntree rem w Hwf Hrem Hids)
    as (m3 & ids' & Hrun & _ & _ & Hused & _).
  eexists _, _. split; [exact Hrun|].
  intros u q Hu Hkept Hedge Hne Hq.
  apply list_elem_of_filter in Hq as [Ht _].
  rewrite (Hused u q) in Ht; [discriminate| |assumption|assumption].
  destruct (is_tagged m3 u) eqn:Htu; [|reflexivity].
  exfalso. apply Hkept. apply list_elem_of_filter. auto.
Qed.

(** X13.  [ui_node_remove_linked] frees the node to remove itself when
    that node lies on no cycle of links. *)
Theorem ui_node_remove_linked_frees_node
    (ntree : list ptr) (rem : ptr) (w : World) :
  well_formed ntree (w_nodes w) -> is_Some (w_nodes w !! rem) -> ids_valid w ->
  ~ tc (edge (w_nodes w)) rem rem ->
  exists (w' : World) (freed : list ptr),
    ui_node_remove_linked NODE_TEST ntree (Some rem) w = Ok (w', freed)
    /\ rem ∈ freed.
Proof.
  intros Hwf Hrem Hids Hacyclic.
  destruct (remove_linked_run ntree rem w Hwf Hrem Hids)
    as (m3 & ids' & Hrun & _ & _ & _ & [Ht|Hcycle] & _); [|contradiction].
  eexists _, _. split; [exact Hrun|].
  apply list_elem_of_filter. split; [assumption|].
  destruct Hwf as (_ & Hall & _). apply Hall. assumption.
Qed.

Lemma remove_linked_tags (ntree : list ptr) (rem : ptr) (w w' : World)
    (freed : list ptr) :
  ui_node_remove_linked NODE_TEST ntree (Some rem) w = Ok (w', freed) ->
  tag_linked_nodes NODE_TEST ntree rem (w_nodes w) = Ok (w_nodes w').
Proof.
  unfold ui_node_remove_linked, tag_linked_nodes.
  destruct (clear_tags NODE_TEST ntree (w_nodes w)) as [m1|f|];
    cbn [mbind outcome_bind]; try discriminate.
  destruct (ui_node_tag_recursive NODE_TEST (S (size (w_nodes w))) (Some rem) m1)
    as [m2|f|]; cbn [mbind outcome_bind]; try discriminate.
  destruct (clear_used NODE_TEST (S (size (w_nodes w))) ntree rem m2)
    as [m3|f|]; cbn [mbind outcome_bind]; try discriminate.
  destruct (remove_tagged NODE_TEST ntree m3 (w_id_us w)) as [removed|f|];
    cbn [mbind outcome_bind]; try discriminate.
  intros [= <- _]. reflexivity.
Qed.

(** X14.  When the removal loop of [ui_node_remove_linked] starts, the
    two loops before it have left every node as it was but for
    [NODE_TEST]: the other flag bits, the sockets with their links and
    the data block are untouched, no node has appeared or gone, and
    [NODE_TEST] is set on exactly the nodes that the removal loop then
    hands to [nodeFreeNode], flags from before the call playing no
    part. *)
Theorem tag_linked_nodes_flags
    (ntree : list ptr) (rem : ptr) (w : World) :
  well_formed ntree (w_nodes w) -> is_Some (w_nodes w !! rem) -> ids_valid w ->
  exists (m' : gmap ptr Node) (w' : World) (freed : list ptr),
    tag_linked_nodes NODE_TEST ntree rem (w_nodes w) = Ok m'
    /\ ui_node_remove_linked NODE_TEST ntree (Some rem) w = Ok (w', freed)
    /\ (forall q n, w_nodes w !! q = Some n ->
          m' !! q
          = Some (if decide (q ∈ freed) then set_tag (clear_tag n)
                  else clear_tag n))
    /\ (forall q, w_nodes w !! q = None -> m' !! q = None).
Proof.
  intros Hwf Hrem Hids.
  destruct (remove_linked_run ntree rem w Hwf Hrem Hids)
    as (m3 & ids' & Hrun & Hnodes & Hdom & _).
  exists m3. eexists _, _.
  split; [exact (remove_linked_tags ntree rem w _ _ Hrun)|].
  split; [exact Hrun|]. split; [|exact Hdom].
  intros q n Hn.
  assert (q ∈ ntree) as Hq.
  { destruct Hwf as (_ & Hall & _). apply Hall. eauto. }
  destruct (Hnodes q n Hn) as [[Ht Hm]|(Ht & Hm & _)]; rewrite Hm; f_equal.
  - rewrite decide_False; [reflexivity|].
    intros Hin. apply list_elem_of_filter in Hin as [Ht' _]. congruence.
  - rewrite decide_True; [reflexivity|].
    apply list_elem_of_filter. auto.
Qed.

(** X15.  [ui_node_remove_linked] takes one user from a data block for
    every freed node that uses it: the user count of a data block ends
    as its old value minus the number of freed nodes with that data
    block, as an [int]. *)
Theorem ui_node_remove_linked_users
    (ntree : list ptr) (rem : ptr) (w : World) :
  well_formed ntree (w_nodes w) -> is_Some (w_nodes w !! rem) -> ids_valid w ->
  exists (w' : World) (freed : list ptr),
    ui_node_remove_linked NODE_TEST ntree (Some rem) w = Ok (w', freed)
    /\ (forall i us,
          w_id_us w !! i = Some us -> - 2 ^ 31 <= us < 2 ^ 31 ->
          w_id_us w' !! i
          = Some (Int.wrap
                    (us - Z.of_nat
                            (length (filter (fun q =>
                               (w_nodes w !! q ≫= n_id) = Some i) freed)))))
    /\ (forall i, w_id_us w !! i = None -> w_id_us w' !! i = None).
Proof.
  intros Hwf Hrem Hids.
  destruct (remove_linked_run ntree rem w Hwf Hrem Hids)
    as (m3 & ids' & Hrun & Hnodes & Hdom & _ & _ & Hcount).
  eexists _, _. split; [exact Hrun|]. cbn [w_id_us]. split.
  - intros i us Hus Hrange. rewrite Hcount, Hus. cbn [fmap option_fmap option_map].
    f_equal. rewrite <- (int_wrap_small us Hrange) at 1.
    rewrite iter_int_sub. do 3 f_equal.
    unfold tagged_users. rewrite list_filter_filter. f_equal.
    apply list_filter_iff. intros q.
    assert (m3 !! q ≫= n_id = w_nodes w !! q ≫= n_id) as Hid.
    { destruct (w_nodes w !! q) as [n|] eqn:Hn.
      - destruct (Hnodes q n Hn) as [[_ Hm]|(_ & Hm & _)]; rewrite Hm;
          reflexivity.
      - rewrite (Hdom q Hn). reflexivity. }
    rewrite Hid. tauto.
  - intros i Hi. rewrite Hcount, Hi. reflexivity.
Qed.

End Removal.

(** ** Conditions that can be checked by computation *)

Lemma links_inside_closed m : links_inside m -> closed m.
Proof.
  intros Hin p q (n & Hn & Hq).
  pose proof (Hin p n Hn) as Hall. rewrite Forall_forall in Hall.
  apply Hall. assumption.
Qed.

Lemma same_nodes_well_formed ntree m :
  NoDup ntree -> list_to_set ntree = dom m -> links_inside m ->
  well_formed ntree m.
Proof.
  intros Hnd Hdom Hin. split; [assumption|]. split.
  - intros p. rewrite <- elem_of_dom, <- Hdom, elem_of_list_to_set. reflexivity.
  - apply links_inside_closed. assumption.
Qed.

Lemma links_descend_acyclic rank m p : links_descend rank m -> ~ tc (edge m) p p.
Proof.
  intros Hdesc.
  assert (forall x y, tc (edge m) x y -> (rank y < rank x)%nat) as Hlt.
  { induction 1 as [x y (n & Hn & Hy)|x y z (n & Hn & Hy) _ IH].
    - pose proof (Hdesc x n Hn) as Hall. rewrite Forall_forall in Hall. auto.
    - pose proof (Hdesc x n Hn) as Hall. rewrite Forall_forall in Hall.
      specialize (Hall y Hy). lia. }
  intros Hcycle. apply Hlt in Hcycle. lia.
Qed.


(** ** The sample trees *)

Ltac by_computation :=
  match goal with
  | |- ?P => apply (bool_decide_unpack P); vm_compute; exact I
  end.

Lemma sample_cyclic_closed : closed SampleLinks.cyclic.
Proof. apply links_inside_closed. by_computation. Qed.

Lemma sample_cyclic_clean :
  forall q n, SampleLinks.cyclic !! q = Some n ->
              NodeLink.tagged SampleLinks.NODE_TEST n = false.
Proof.
  change (map_Forall (fun _ n => NodeLink.tagged SampleLinks.NODE_TEST n = false)
            SampleLinks.cyclic).
  by_computation.
Qed.

Lemma sample_tree_well_formed :
  well_formed SampleLinks.tree (w_nodes SampleLinks.world).
Proof. apply same_nodes_well_formed; by_computation. Qed.

Lemma sample_tree_ids_valid : ids_valid SampleLinks.world.
Proof.
  intros p n i Hn Hi.
  assert (map_Forall (fun _ n =>
            Forall (fun i => is_Some (w_id_us SampleLinks.world !! i))
              (option_list (n_id n))) (w_nodes SampleLinks.world)) as Hall
    by by_computation.
  specialize (Hall p n Hn). cbv beta in Hall.
  rewrite Hi in Hall. inversion Hall. assumption.
Qed.

Lemma sample_tree_acyclic :
  ~ tc (edge (w_nodes SampleLinks.world)) 2%nat 2%nat.
Proof. apply (links_descend_acyclic SampleLinks.rank). by_computation. Qed.

Lemma sample_rem_valid : is_Some (w_nodes SampleLinks.world !! 2%nat).
Proof. by_computation. Qed.

Lemma sample_cyclic_start : is_Some (SampleLinks.cyclic !! 1%nat).
Proof. by_computation. Qed.

Lemma sample_NODE_TEST : SampleLinks.NODE_TEST <> 0.
Proof. discriminate. Qed.

(** ** The theorems on the sample trees *)

Lemma ui_node_tag_recursive_reach_witness :
  exists m',
    ui_node_tag_recursive SampleLinks.NODE_TEST (S (size SampleLinks.cyclic))
      (Some 1%nat) SampleLinks.cyclic = Ok m'
    /\ (forall q n, SampleLinks.cyclic !! q = Some n ->
          (rtc (edge SampleLinks.cyclic) 1%nat q
           /\ m' !! q = Some (set_tag SampleLinks.NODE_TEST n))
          \/ (~ rtc (edge SampleLinks.cyclic) 1%nat q /\ m' !! q = Some n))
    /\ (forall q, SampleLinks.cyclic !! q = None -> m' !! q = None).
Proof.
  apply (ui_node_tag_recursive_reach SampleLinks.NODE_TEST sample_NODE_TEST
           SampleLinks.cyclic 1%nat).
  - exact sample_cyclic_closed.
  - exact sample_cyclic_start.
  - exact sample_cyclic_clean.
Defined.

Lemma ui_node_clear_recursive_undoes_tag_witness :
  exists m',
    ui_node_tag_recursive SampleLinks.NODE_TEST (S (size SampleLinks.cyclic))
      (Some 1%nat) SampleLinks.cyclic = Ok m'
    /\ ui_node_clear_recursive SampleLinks.NODE_TEST
         (S (size SampleLinks.cyclic)) (Some 1%nat) m'
       = Ok SampleLinks.cyclic.
Proof.
  apply (ui_node_clear_recursive_undoes_tag SampleLinks.NODE_TEST
           sample_NODE_TEST SampleLinks.cyclic 1%nat).
  - exact sample_cyclic_closed.
  - exact sample_cyclic_start.
  - exact sample_cyclic_clean.
Defined.

Lemma ui_node_remove_linked_only_upstream_witness :
  exists (w' : World) (freed : list ptr),
    ui_node_remove_linked SampleLinks.NODE_TEST SampleLinks.tree (Some 2%nat)
      SampleLinks.world = Ok (w', freed)
    /\ (forall q, q ∈ freed -> rtc (edge (w_nodes SampleLinks.world)) 2%nat q)
    /\ NoDup freed
    /\ freed `sublist_of` SampleLinks.tree.
Proof.
  apply (ui_node_remove_linked_only_upstream SampleLinks.NODE_TEST
           sample_NODE_TEST SampleLinks.tree 2%nat SampleLinks.world).
  - exact sample_tree_well_formed.
  - exact sample_rem_valid.
  - exact sample_tree_ids_valid.
Defined.

Lemma ui_node_remove_linked_keeps_used_witness :
  exists (w' : World) (freed : list ptr),
    ui_node_remove_linked SampleLinks.NODE_TEST SampleLinks.tree (Some 2%nat)
      SampleLinks.world = Ok (w', freed)
    /\ forall u q, u ∈ SampleLinks.tree -> u ∉ freed ->
                   edge (w_nodes SampleLinks.world) u q -> q <> 2%nat ->
                   q ∉ freed.
Proof.
  apply (ui_node_remove_linked_keeps_used SampleLinks.NODE_TEST
           sample_NODE_TEST SampleLinks.tree 2%nat SampleLinks.world).
  - exact sample_tree_well_formed.
  - exact sample_rem_valid.
  - exact sample_tree_ids_valid.
Defined.

Lemma ui_node_remove_linked_frees_node_witness :
  exists (w' : World) (freed : list ptr),
    ui_node_remove_linked SampleLinks.NODE_TEST SampleLinks.tree (Some 2%nat)
      SampleLinks.world = Ok (w', freed)
    /\ 2%nat ∈ freed.
Proof.
  apply (ui_node_remove_linked_frees_node SampleLinks.NODE_TEST
           sample_NODE_TEST SampleLinks.tree 2%nat SampleLinks.world).
  - exact sample_tree_well_formed.
  - exact sample_rem_valid.
  - exact sample_tree_ids_valid.
  - exact sample_tree_acyclic.
Defined.

Lemma tag_linked_nodes_flags_witness :
  exists (m' : gmap ptr Node) (w' : World) (freed : list ptr),
    tag_linked_nodes SampleLinks.NODE_TEST SampleLinks.tree 2%nat
      (w_nodes SampleLinks.world) = Ok m'
    /\ ui_node_remove_linked SampleLinks.NODE_TEST SampleLinks.tree (Some 2%nat)
         SampleLinks.world = Ok (w', freed)
    /\ (forall q n, w_nodes SampleLinks.world !! q = Some n ->
          m' !! q
          = Some (if decide (q ∈ freed)
                  then set_tag SampleLinks.NODE_TEST
                         (clear_tag SampleLinks.NODE_TEST n)
                  else clear_tag SampleLinks.NODE_TEST n))
    /\ (forall q, w_nodes SampleLinks.world !! q = None -> m' !! q = None).
Proof.
  apply (tag_linked_nodes_flags SampleLinks.NODE_TEST
           sample_NODE_TEST SampleLinks.tree 2%nat SampleLinks.world).
  - exact sample_tree_well_formed.
  - exact sample_rem_valid.
  - exact sample_tree_ids_valid.
Defined.

Lemma ui_node_remove_linked_users_witness :
  exists (w' : World) (freed : list ptr),
    ui_node_remove_linked SampleLinks.NODE_TEST SampleLinks.tree (Some 2%nat)
      SampleLinks.world = Ok (w', freed)
    /\ (forall i us,
          w_id_us SampleLinks.world !! i = Some us -> - 2 ^ 31 <= us < 2 ^ 31 ->
          w_id_us w' !! i
          = Some (Int.wrap
                    (us - Z.of_nat
                            (length (filter (fun q =>
                               (w_nodes SampleLinks.world !! q ≫= n_id) = Some i)
                               freed)))))
    /\ (forall i, w_id_us SampleLinks.world !! i = None ->
                  w_id_us w' !! i = None).
Proof.
  apply (ui_node_remove_linked_users SampleLinks.NODE_TEST
           sample_NODE_TEST SampleLinks.tree 2%nat SampleLinks.world).
  - exact sample_tree_well_formed.
  - exact sample_rem_valid.
  - exact sample_tree_ids_valid.
Defined.
